(** * Excavation job management: estimates, jobs and their HTTP handlers

    A shallow embedding of the server of the excavation job management
    application (shared/schema, server/storage, server/routes) and of the
    client's labor calculator, with the properties its specification states
    about them.

    Numbers.  A JavaScript number is modelled by its exact value: a rational,
    an infinity or NaN.  Arithmetic on finite values is exact; the rounding of
    binary64 arithmetic, overflow to an infinity and the sign of zero are not
    modelled.  The rounding that the program itself asks for ([toFixed]) is
    modelled as ECMAScript defines it, on the string that it prints and that
    [Number] reads back.

    Database.  The two tables are finite maps from the primary key to the
    row, with the sequences of their [serial] keys; a column holds the value
    it is given (the single precision of a [real] column is not modelled).
    The foreign key of [estimates.jobId] and the primary keys are checked as
    PostgreSQL checks them, and a failed statement throws.

    Requests are served one at a time: a handler is a function from the
    database to its response and the database it leaves. *)

From Stdlib Require Import QArith Qcanon Qround Qabs ZArith Ascii String List Lia Lqa.
From stdpp Require Import base decidable option numbers list strings gmap fin_maps.

Set Default Proof Using "Type".
#[local] Set Warnings "-register-all".

(** ** JavaScript numbers, [toFixed], [Number] and [parseFloat] *)

Module JS.

Inductive number :=
  | NaN
  | Fin (q : Qc)
  | Inf (negative : bool).

#[global] Instance number_eq_dec : EqDecision number.
Proof. solve_decision. Defined.

Definition ofZ (z : Z) : number := Fin (Qc_of_Z z).

Definition isNeg (q : Qc) : bool := bool_decide (q < 0)%Qc.
Definition isZero (q : Qc) : bool := bool_decide (q = 0)%Qc.

(** [x * y] *)
Definition mul (x y : number) : number :=
  match x, y with
  | NaN, _ | _, NaN => NaN
  | Fin a, Fin b => Fin (a * b)%Qc
  | Inf s, Fin a | Fin a, Inf s =>
      if isZero a then NaN else Inf (xorb s (isNeg a))
  | Inf s, Inf t => Inf (xorb s t)
  end.

(** [x / y] *)
Definition div (x y : number) : number :=
  match x, y with
  | NaN, _ | _, NaN => NaN
  | Fin a, Fin b =>
      if isZero b then (if isZero a then NaN else Inf (isNeg a))
      else Fin (a / b)%Qc
  | Inf s, Fin b => Inf (xorb s (isNeg b))
  | Fin _, Inf _ => Fin 0%Qc
  | Inf _, Inf _ => NaN
  end.

(** [x + y] *)
Definition add (x y : number) : number :=
  match x, y with
  | NaN, _ | _, NaN => NaN
  | Fin a, Fin b => Fin (a + b)%Qc
  | Inf s, Fin _ | Fin _, Inf s => Inf s
  | Inf s, Inf t => if Bool.eqb s t then Inf s else NaN
  end.

(** [x > 0] and [x >= 0] *)
Definition gt0 (x : number) : bool :=
  match x with
  | NaN => false
  | Fin q => bool_decide (0 < q)%Qc
  | Inf s => negb s
  end.

Definition ge0 (x : number) : bool :=
  match x with
  | NaN => false
  | Fin q => bool_decide (0 ≤ q)%Qc
  | Inf s => negb s
  end.

(** ToBoolean on a number: [NaN] and zero are falsy. *)
Definition truthy (x : number) : bool :=
  match x with
  | NaN => false
  | Fin q => negb (isZero q)
  | Inf _ => true
  end.

(** [x || d] on numbers *)
Definition orElse (x d : number) : number := if truthy x then x else d.

(** *** Decimal digits *)

Definition digitChar (d : N) : ascii := ascii_of_N (48 + d).

Definition digitVal (c : ascii) : option N :=
  let n := N_of_ascii c in
  if (48 <=? n)%N && (n <=? 57)%N then Some (n - 48)%N else None.

Fixpoint digitsAux (fuel : nat) (n : N) (acc : list ascii) : list ascii :=
  match fuel with
  | O => acc
  | S fuel' =>
      let acc' := digitChar (n mod 10) :: acc in
      if (n / 10 =? 0)%N then acc' else digitsAux fuel' (n / 10) acc'
  end.

(** The decimal representation of [n], most significant digit first;
    ["0"] for zero. *)
Definition decimalDigits (n : N) : list ascii :=
  digitsAux (S (N.to_nat (N.log2 n))) n [].

(** The longest run of decimal digits at the head of [s], and what follows. *)
Fixpoint scanDigits (s : list ascii) : list N * list ascii :=
  match s with
  | [] => ([], [])
  | c :: r =>
      match digitVal c with
      | Some d => let '(ds, r') := scanDigits r in (d :: ds, r')
      | None => ([], s)
      end
  end.

Definition digitsValue (ds : list N) : N :=
  fold_left (λ acc d, 10 * acc + d)%N ds 0%N.

(** *** Number.prototype.toFixed

    Steps of ECMAScript's Number.prototype.toFixed(fractionDigits): a value
    that is not finite prints as by ToString; a negative one prints its sign
    and then its magnitude; [n] is the integer for which [n / 10^f - x] is
    closest to zero, the larger one of two; its digits are padded with
    zeros to [f + 1] places and the point goes before the last [f].
    Every binary64 value of magnitude at least [10^21] (which ECMAScript
    prints by ToString instead) is an integer, so that rounding it to [f]
    places gives the value again: [Number] of either string is the same. *)

Definition pow10 (f : nat) : Z := (10 ^ Z.of_nat f)%Z.

(** The integer [n] nearest to [x * 10^f], the larger one on a tie. *)
Definition nearestScaled (f : nat) (x : Q) : Z :=
  Qfloor (x * inject_Z (pow10 f) + (1 # 2))%Q.

Definition toFixedChars (f : nat) (x : number) : list ascii :=
  match x with
  | NaN => list_ascii_of_string "NaN"
  | Inf false => list_ascii_of_string "Infinity"
  | Inf true => list_ascii_of_string "-Infinity"
  | Fin q =>
      let s := if isNeg q then ["-"%char] else [] in
      let x := Qabs q in
      let n := nearestScaled f x in
      let m := decimalDigits (Z.to_N n) in
      let m :=
        match f with
        | O => m
        | _ =>
            let m := replicate (f + 1 - length m) "0"%char ++ m in
            let k := length m in
            take (k - f) m ++ "."%char :: drop (k - f) m
        end in
      s ++ m
  end.

Definition toFixed (f : nat) (x : number) : string :=
  string_of_list_ascii (toFixedChars f x).

(** *** StrDecimalLiteral, [parseFloat] and [Number] *)

(** White space: the characters of ASCII that are WhiteSpace or
    LineTerminator. *)
Definition isWhiteSpace (c : ascii) : bool :=
  let n := N_of_ascii c in
  ((9 <=? n)%N && (n <=? 13)%N) || (n =? 32)%N.

Fixpoint trimStart (s : list ascii) : list ascii :=
  match s with
  | c :: r => if isWhiteSpace c then trimStart r else s
  | [] => []
  end.

Definition trimEnd (s : list ascii) : list ascii := rev (trimStart (rev s)).
Definition trim (s : list ascii) : list ascii := trimEnd (trimStart s).

Fixpoint stripPrefix (p s : list ascii) : option (list ascii) :=
  match p, s with
  | [], _ => Some s
  | a :: p', b :: s' => if Ascii.eqb a b then stripPrefix p' s' else None
  | _ :: _, [] => None
  end.

(** [m * 10^e] for a mantissa with [k] fraction digits. *)
Definition decimalValue (mant : N) (k : nat) (e : Z) : Qc :=
  Q2Qc ((Z.of_N mant # 1) * Qpower (10 # 1) (e - Z.of_nat k)).

(** An optional ExponentPart: [e] or [E], an optional sign and at least one
    digit; without a digit nothing is consumed. *)
Definition scanExponent (s : list ascii) : Z * list ascii :=
  match s with
  | c :: r =>
      if Ascii.eqb c "e" || Ascii.eqb c "E" then
        let '(neg, r1) :=
          match r with
          | "-"%char :: r' => (true, r')
          | "+"%char :: r' => (false, r')
          | _ => (false, r)
          end in
        match scanDigits r1 with
        | ([], _) => (0%Z, s)
        | (ds, r2) =>
            let e := Z.of_N (digitsValue ds) in
            ((if neg then - e else e)%Z, r2)
        end
      else (0%Z, s)
  | [] => (0%Z, s)
  end.

(** The longest prefix that is a StrUnsignedDecimalLiteral, with its value. *)
Definition scanUnsigned (s : list ascii) : option (number * list ascii) :=
  match stripPrefix (list_ascii_of_string "Infinity") s with
  | Some r => Some (Inf false, r)
  | None =>
      let '(ip, r1) := scanDigits s in
      let '(fp, r2) :=
        match r1 with
        | "."%char :: r => scanDigits r
        | _ => ([], r1)
        end in
      match ip, fp with
      | [], [] => None
      | _, _ =>
          let '(e, r3) := scanExponent r2 in
          Some (Fin (decimalValue (digitsValue (ip ++ fp)) (length fp) e), r3)
      end
  end.

Definition negate (x : number) : number :=
  match x with
  | NaN => NaN
  | Fin q => Fin (- q)%Qc
  | Inf s => Inf (negb s)
  end.

Definition scanDecimal (s : list ascii) : option (number * list ascii) :=
  match s with
  | "-"%char :: r =>
      match scanUnsigned r with
      | Some (v, r') => Some (negate v, r')
      | None => None
      end
  | "+"%char :: r => scanUnsigned r
  | _ => scanUnsigned s
  end.

(** [parseFloat(s)]: the value of the longest decimal literal at the head of
    the trimmed string, [NaN] when there is none. *)
Definition parseFloat (s : string) : number :=
  match scanDecimal (trimStart (list_ascii_of_string s)) with
  | Some (v, _) => v
  | None => NaN
  end.

(** NonDecimalIntegerLiteral: [0x], [0o], [0b] and digits of that base. *)
Definition hexVal (c : ascii) : option N :=
  let n := N_of_ascii c in
  if (48 <=? n)%N && (n <=? 57)%N then Some (n - 48)%N
  else if (97 <=? n)%N && (n <=? 102)%N then Some (n - 87)%N
  else if (65 <=? n)%N && (n <=? 70)%N then Some (n - 55)%N
  else None.

Fixpoint radixValue (base : N) (s : list ascii) (acc : N) : option N :=
  match s with
  | [] => Some acc
  | c :: r =>
      match hexVal c with
      | Some d => if (d <? base)%N then radixValue base r (base * acc + d)%N else None
      | None => None
      end
  end.

Definition radixOf (c : ascii) : option N :=
  if Ascii.eqb c "x" || Ascii.eqb c "X" then Some 16%N
  else if Ascii.eqb c "o" || Ascii.eqb c "O" then Some 8%N
  else if Ascii.eqb c "b" || Ascii.eqb c "B" then Some 2%N
  else None.

Definition nonDecimal (s : list ascii) : option number :=
  match s with
  | "0"%char :: c :: ds =>
      match radixOf c with
      | Some base =>
          Some match ds, radixValue base ds 0 with
               | _ :: _, Some v => ofZ (Z.of_N v)
               | _, _ => NaN
               end
      | None => None
      end
  | _ => None
  end.

(** [Number(s)] on a string: the whole trimmed string must be a numeric
    literal; the empty string is 0. *)
Definition NumberChars (s : list ascii) : number :=
  match trim s with
  | [] => Fin 0%Qc
  | t =>
      match nonDecimal t with
      | Some v => v
      | None =>
          match scanDecimal t with
          | Some (v, []) => v
          | _ => NaN
          end
      end
  end.

Definition Number (s : string) : number := NumberChars (list_ascii_of_string s).

End JS.

(** ** Request bodies and zod schemas *)

(** A parsed JSON value, as [express.json()] hands it to a handler. *)
Inductive json :=
  | JNull
  | JBool (b : bool)
  | JNum (x : JS.number)
  | JStr (s : string)
  | JArr (items : list json)
  | JObj (fields : gmap string json).

Module Zod.

Record ZodIssue := { path : list string; message : string }.

(** zod's parse status: [Dirty] is a value of the right type that failed a
    refinement, [Aborted] a value of the wrong type. *)
Inductive ParseResult (A : Type) :=
  | Valid (a : A)
  | Dirty (issues : list ZodIssue)
  | Aborted (issues : list ZodIssue).
Arguments Valid {A} a.
Arguments Dirty {A} issues.
Arguments Aborted {A} issues.

#[global] Instance ZodIssue_eq_dec : EqDecision ZodIssue.
Proof. solve_decision. Defined.
#[global] Instance ParseResult_eq_dec `{EqDecision A} : EqDecision (ParseResult A).
Proof. solve_decision. Defined.

(** A schema reads the value found at a path; [None] is [undefined]. *)
Definition Schema (A : Type) := list string → option json → ParseResult A.

Definition typeName (v : option json) : string :=
  match v with
  | None => "undefined"
  | Some JNull => "null"
  | Some (JBool _) => "boolean"
  | Some (JNum JS.NaN) => "nan"
  | Some (JNum _) => "number"
  | Some (JStr _) => "string"
  | Some (JArr _) => "array"
  | Some (JObj _) => "object"
  end.

Definition invalidType (expected : string) (p : list string) (v : option json) : ZodIssue :=
  {| path := p;
     message := match v with
                | None => "Required"
                | Some _ => "Expected " +:+ expected +:+ ", received " +:+ typeName v
                end |}.

Definition map {A B} (f : A → B) (r : ParseResult A) : ParseResult B :=
  match r with
  | Valid a => Valid (f a)
  | Dirty i => Dirty i
  | Aborted i => Aborted i
  end.

(** Parsing the keys of an object: every key is parsed and the issues of all
    of them are collected. *)
Definition ap {A B} (rf : ParseResult (A → B)) (ra : ParseResult A) : ParseResult B :=
  match rf, ra with
  | Valid f, Valid a => Valid (f a)
  | Valid _, Dirty i => Dirty i
  | Valid _, Aborted i => Aborted i
  | Dirty i, Valid _ => Dirty i
  | Dirty i, Dirty j => Dirty (i ++ j)
  | Dirty i, Aborted j => Aborted (i ++ j)
  | Aborted i, Valid _ => Aborted i
  | Aborted i, Dirty j | Aborted i, Aborted j => Aborted (i ++ j)
  end.

(** [z.string()] *)
Definition string_ : Schema string := λ p v,
  match v with
  | Some (JStr s) => Valid s
  | _ => Aborted [invalidType "string" p v]
  end.

(** [z.number()]: NaN is not a number for zod. *)
Definition number_ : Schema JS.number := λ p v,
  match v with
  | Some (JNum JS.NaN) => Aborted [invalidType "number" p v]
  | Some (JNum x) => Valid x
  | _ => Aborted [invalidType "number" p v]
  end.

(** [z.date()]: no JSON value is a Date. *)
Definition date_ : Schema Z := λ p v, Aborted [invalidType "date" p v].

(** A check added to a schema, such as [.positive(message)]. *)
Definition refine {A} (check : A → bool) (msg : string) (s : Schema A) : Schema A := λ p v,
  match s p v with
  | Valid a => if check a then Valid a else Dirty [{| path := p; message := msg |}]
  | r => r
  end.

Definition positive (msg : string) : Schema JS.number → Schema JS.number :=
  refine JS.gt0 msg.
Definition min0 (msg : string) : Schema JS.number → Schema JS.number :=
  refine JS.ge0 msg.

Definition transform {A B} (f : A → B) (s : Schema A) : Schema B := λ p v,
  map f (s p v).

Definition optional {A} (s : Schema A) : Schema (option A) := λ p v,
  match v with
  | None => Valid None
  | Some _ => map Some (s p v)
  end.

Definition nullable {A} (s : Schema A) : Schema (option A) := λ p v,
  match v with
  | Some JNull => Valid None
  | _ => map Some (s p v)
  end.

(** [z.union([s1, s2])]: the first option that is valid; when none is, the
    issues of the option that was only dirty, else one issue for the union. *)
Definition union {A} (s1 s2 : Schema A) : Schema A := λ p v,
  match s1 p v, s2 p v with
  | Valid a, _ => Valid a
  | _, Valid a => Valid a
  | Dirty i, _ => Dirty i
  | _, Dirty i => Dirty i
  | Aborted _, Aborted _ => Aborted [{| path := p; message := "Invalid input" |}]
  end.

(** The keys of a [z.object]: a value that is not an object is refused as a
    whole. *)
Definition object {A} (keys : gmap string json → ParseResult A) : json → ParseResult A :=
  λ body,
  match body with
  | JObj o => keys o
  | _ => Aborted [invalidType "object" [] (Some body)]
  end.

Definition key {A} (o : gmap string json) (k : string) (s : Schema A) : ParseResult A :=
  s [k] (o !! k).

End Zod.

Notation "f <$z> x" := (Zod.map f x) (at level 61, left associativity).
Notation "f <*z> x" := (Zod.ap f x) (at level 61, left associativity).

(** ** shared/schema *)

(** The rows of the two tables.  [serial] and [integer] columns hold
    integers, a nullable column an option; a column holds the value it was
    given. *)
Module Job.
Record t := {
  id : Z;
  name : string;
  location : string;
  client : string;
  startDate : option string;
  status : string;
  notes : option string;
}.
#[global] Instance eq_dec : EqDecision t.
Proof. solve_decision. Defined.
End Job.

Module Estimate.
Record t := {
  id : Z;
  jobId : Z;
  description : option string;
  pipeLength : JS.number;
  trenchWidth : JS.number;
  trenchDepth : JS.number;
  cubicYards : JS.number;
  materialWeight : JS.number;
  importUnitCost : JS.number;
  estimatedHours : option JS.number;
  createdAt : option Z;
  notes : option string;
}.
#[global] Instance eq_dec : EqDecision t.
Proof. solve_decision. Defined.
End Estimate.

(** [InsertJob] and [InsertEstimate]: what [createInsertSchema] infers for a
    table without its [id].  A key may be absent (outer [None]) when its
    column is nullable or has a default, and [null] (inner [None]) when its
    column is nullable. *)
Module InsertJob.
Record t := {
  name : string;
  location : string;
  client : string;
  startDate : option (option string);
  status : option string;
  notes : option (option string);
}.
#[global] Instance eq_dec : EqDecision t.
Proof. solve_decision. Defined.
End InsertJob.

Module InsertEstimate.
Record t := {
  jobId : JS.number;
  description : option (option string);
  pipeLength : JS.number;
  trenchWidth : JS.number;
  trenchDepth : JS.number;
  cubicYards : JS.number;
  materialWeight : option JS.number;
  importUnitCost : option JS.number;
  estimatedHours : option (option JS.number);
  createdAt : option (option Z);
  notes : option (option string);
}.
#[global] Instance eq_dec : EqDecision t.
Proof. solve_decision. Defined.
End InsertEstimate.

(** [Partial<InsertJob>] and [Partial<InsertEstimate>]: every key may be
    absent. *)
Module PartialJob.
Record t := {
  name : option string;
  location : option string;
  client : option string;
  startDate : option (option string);
  status : option string;
  notes : option (option string);
}.
#[global] Instance eq_dec : EqDecision t.
Proof. solve_decision. Defined.
End PartialJob.

Module PartialEstimate.
Record t := {
  jobId : option JS.number;
  description : option (option string);
  pipeLength : option JS.number;
  trenchWidth : option JS.number;
  trenchDepth : option JS.number;
  cubicYards : option JS.number;
  materialWeight : option JS.number;
  importUnitCost : option JS.number;
  estimatedHours : option (option JS.number);
  createdAt : option (option Z);
  notes : option (option string);
}.
#[global] Instance eq_dec : EqDecision t.
Proof. solve_decision. Defined.
End PartialEstimate.

Module JobStatus.
End JobStatus.

Definition num (n d : Z) : JS.number := JS.Fin (Q2Qc (n # Z.to_pos d)).

Definition defaultMaterialWeight : JS.number := JS.ofZ 145.
Definition defaultImportUnitCost : JS.number := num 2450 100.
Definition defaultEstimatedHours : JS.number := JS.ofZ 0.

Module Schema.
Import Zod.

(** The column schemas of [createInsertSchema]: [text] is a string, [real]
    and [integer] a number, [timestamp] a date; a nullable column is
    [.nullable().optional()], one with a default [.optional()]. *)
Definition text : Schema string := string_.
Definition textNull : Schema (option (option string)) := optional (nullable string_).

(** [insertJobSchema = createInsertSchema(jobs).omit({ id: true })] *)
Definition insertJobSchema : json → ParseResult InsertJob.t :=
  object (λ o,
    InsertJob.Build_t
      <$z> key o "name" text
      <*z> key o "location" text
      <*z> key o "client" text
      <*z> key o "startDate" textNull
      <*z> key o "status" (optional string_)
      <*z> key o "notes" textNull).

(** [insertJobSchema.partial()] *)
Definition insertJobSchema_partial : json → ParseResult PartialJob.t :=
  object (λ o,
    PartialJob.Build_t
      <$z> key o "name" (optional text)
      <*z> key o "location" (optional text)
      <*z> key o "client" (optional text)
      <*z> key o "startDate" textNull
      <*z> key o "status" (optional string_)
      <*z> key o "notes" textNull).

(** The keys that [estimateValidationSchema] redefines. *)
Definition pipeLength_ : Schema JS.number :=
  positive "Pipe length must be greater than 0" number_.
Definition trenchWidth_ : Schema JS.number :=
  positive "Trench width must be greater than 0" number_.
Definition trenchDepth_ : Schema JS.number :=
  positive "Trench depth must be greater than 0" number_.
Definition materialWeight_ : Schema JS.number :=
  union (positive "Material weight must be greater than 0" number_)
        (transform (λ val, JS.orElse (JS.parseFloat val) defaultMaterialWeight) string_).
Definition importUnitCost_ : Schema JS.number :=
  union (positive "Import unit cost must be greater than 0" number_)
        (transform (λ val, JS.orElse (JS.parseFloat val) defaultImportUnitCost) string_).
Definition estimatedHours_ : Schema JS.number :=
  union (min0 "Estimated hours cannot be negative" number_)
        (transform (λ val, JS.orElse (JS.parseFloat val) defaultEstimatedHours) string_).

(** [estimateValidationSchema = insertEstimateSchema.extend({...})]; the
    three keys with a union are required keys and hold a number once
    parsed. *)
Definition estimateValidationSchema : json → ParseResult InsertEstimate.t :=
  object (λ o,
    InsertEstimate.Build_t
      <$z> key o "jobId" number_
      <*z> key o "description" textNull
      <*z> key o "pipeLength" pipeLength_
      <*z> key o "trenchWidth" trenchWidth_
      <*z> key o "trenchDepth" trenchDepth_
      <*z> key o "cubicYards" number_
      <*z> key o "materialWeight" (transform Some materialWeight_)
      <*z> key o "importUnitCost" (transform Some importUnitCost_)
      <*z> key o "estimatedHours" (transform (λ x, Some (Some x)) estimatedHours_)
      <*z> key o "createdAt" (optional (nullable date_))
      <*z> key o "notes" textNull).

(** [estimateValidationSchema.partial()] *)
Definition estimateValidationSchema_partial : json → ParseResult PartialEstimate.t :=
  object (λ o,
    PartialEstimate.Build_t
      <$z> key o "jobId" (optional number_)
      <*z> key o "description" textNull
      <*z> key o "pipeLength" (optional pipeLength_)
      <*z> key o "trenchWidth" (optional trenchWidth_)
      <*z> key o "trenchDepth" (optional trenchDepth_)
      <*z> key o "cubicYards" (optional number_)
      <*z> key o "materialWeight" (optional materialWeight_)
      <*z> key o "importUnitCost" (optional importUnitCost_)
      <*z> key o "estimatedHours" (transform (option_map Some) (optional estimatedHours_))
      <*z> key o "createdAt" (optional (nullable date_))
      <*z> key o "notes" textNull).

End Schema.

(** [calculateCubicYards] of shared/schema *)
Definition calculateCubicYards (pipeLength trenchWidth trenchDepth : JS.number) : JS.number :=
  let cubicFeet := JS.mul (JS.mul pipeLength trenchWidth) trenchDepth in
  JS.Number (JS.toFixed 2 (JS.div cubicFeet (JS.ofZ 27))).

(** ** server/storage: the database and DbStorage *)

(** The two tables, keyed by their primary key, and the sequences behind the
    [serial] columns. *)
Record Db := {
  jobs : gmap Z Job.t;
  estimates : gmap Z Estimate.t;
  jobs_id_seq : Z;
  estimates_id_seq : Z;
}.

#[global] Instance Db_eq_dec : EqDecision Db.
Proof. solve_decision. Defined.

Definition emptyDb : Db :=
  {| jobs := ∅; estimates := ∅; jobs_id_seq := 1; estimates_id_seq := 1 |}.

(** An asynchronous operation on the database: it returns or throws, and
    leaves a database behind. *)
Inductive outcome (A : Type) :=
  | Ok (a : A)
  | Throw (error : string).
Arguments Ok {A} a.
Arguments Throw {A} error.

#[global] Instance outcome_eq_dec `{EqDecision A} : EqDecision (outcome A).
Proof. solve_decision. Defined.

Definition Async (A : Type) := Db → outcome A * Db.

Definition ret {A} (a : A) : Async A := λ db, (Ok a, db).
Definition throw {A} (error : string) : Async A := λ db, (Throw error, db).
Definition bind {A B} (m : Async A) (k : A → Async B) : Async B := λ db,
  match m db with
  | (Ok a, db') => k a db'
  | (Throw e, db') => (Throw e, db')
  end.

Notation "'const' x ':=' 'await' m ;; k" := (bind m (λ x, k))
  (at level 10, x name, m at level 99, k at level 200,
   format "'[v' 'const'  x  ':='  'await'  m  ;; '/' k ']'").
Notation "'await' m ;; k" := (bind m (λ _, k))
  (at level 10, m at level 99, k at level 200,
   format "'[v' 'await'  m  ;; '/' k ']'").

(** [try { m } catch (error) { h }] *)
Definition tryCatch {A} (m : Async A) (h : Async A) : Async A := λ db,
  match m db with
  | (Ok a, db') => (Ok a, db')
  | (Throw _, db') => h db'
  end.

(** [x || null], [x || d] on an optional text or number. *)
Definition orNull (x : option (option string)) : option string :=
  match x with
  | Some (Some s) => if bool_decide (s = "") then None else Some s
  | _ => None
  end.

Definition strOr (x : option string) (d : string) : string :=
  match x with
  | Some s => if bool_decide (s = "") then d else s
  | None => d
  end.

Definition numOr (x : option (option JS.number)) (d : JS.number) : JS.number :=
  match x with
  | Some (Some v) => JS.orElse v d
  | _ => d
  end.

(** An integer column takes a number that is an integer. *)
Definition toInteger (x : JS.number) : option Z :=
  match x with
  | JS.Fin q => if bool_decide (Qden q = 1%positive) then Some (Qnum q) else None
  | _ => None
  end.

(** The rows of a table; SQL promises no order. *)
Definition rows {A} (table : gmap Z A) : list A := (map_to_list table).*2.

Definition estimatesOf (jobId : Z) (table : gmap Z Estimate.t) : gmap Z Estimate.t :=
  filter (λ kv, Estimate.jobId kv.2 = jobId) table.

Definition referenced (jobId : Z) (table : gmap Z Estimate.t) : bool :=
  bool_decide (map_Exists (λ _ e, Estimate.jobId e = jobId) table).

Module DbStorage.

(** *** Job operations *)

Definition getJobs : Async (list Job.t) := λ db, (Ok (rows (jobs db)), db).

Definition getJob (id : Z) : Async (option Job.t) := λ db, (Ok (jobs db !! id), db).

(** [insert(jobs).values(row).returning()]: the row takes the next value of
    the sequence. *)
Definition insertJob (row : Z → Job.t) : Async Job.t := λ db,
  let id := jobs_id_seq db in
  let db' := {| jobs := jobs db; estimates := estimates db;
                jobs_id_seq := id + 1; estimates_id_seq := estimates_id_seq db |} in
  match jobs db !! id with
  | Some _ => (Throw "duplicate key value violates unique constraint", db')
  | None =>
      (Ok (row id),
       {| jobs := <[id := row id]> (jobs db); estimates := estimates db;
          jobs_id_seq := id + 1; estimates_id_seq := estimates_id_seq db |})
  end.

Definition createJob (insertJob_ : InsertJob.t) : Async Job.t :=
  const result := await insertJob (λ id,
    {| Job.id := id;
       Job.name := InsertJob.name insertJob_;
       Job.location := InsertJob.location insertJob_;
       Job.client := InsertJob.client insertJob_;
       Job.startDate := orNull (InsertJob.startDate insertJob_);
       Job.status := strOr (InsertJob.status insertJob_) "pending";
       Job.notes := orNull (InsertJob.notes insertJob_) |}) ;;
  ret result.

(** [update(jobs).set(validData)]: the columns that [validData] has. *)
Definition setJob (validData : PartialJob.t) (row : Job.t) : Job.t :=
  {| Job.id := Job.id row;
     Job.name := default (Job.name row) (PartialJob.name validData);
     Job.location := default (Job.location row) (PartialJob.location validData);
     Job.client := default (Job.client row) (PartialJob.client validData);
     Job.startDate := default (Job.startDate row) (PartialJob.startDate validData);
     Job.status := default (Job.status row) (PartialJob.status validData);
     Job.notes := default (Job.notes row) (PartialJob.notes validData) |}.

Definition noJobColumns (validData : PartialJob.t) : bool :=
  match validData with
  | PartialJob.Build_t None None None None None None => true
  | _ => false
  end.

Definition updateJob (id : Z) (updateData : PartialJob.t) : Async (option Job.t) :=
  let validData :=
    {| PartialJob.name := PartialJob.name updateData;
       PartialJob.location := PartialJob.location updateData;
       PartialJob.client := PartialJob.client updateData;
       PartialJob.startDate := PartialJob.startDate updateData;
       PartialJob.status := PartialJob.status updateData;
       PartialJob.notes := PartialJob.notes updateData |} in
  if noJobColumns validData then throw "No values to set" else
  λ db,
  match jobs db !! id with
  | Some row =>
      let row' := setJob validData row in
      (Ok (Some row'),
       {| jobs := <[id := row']> (jobs db); estimates := estimates db;
          jobs_id_seq := jobs_id_seq db; estimates_id_seq := estimates_id_seq db |})
  | None => (Ok None, db)
  end.

(** [delete(estimates).where(eq(estimates.jobId, id))] *)
Definition deleteEstimatesOfJob (id : Z) : Async unit := λ db,
  (Ok (),
   {| jobs := jobs db;
      estimates := filter (λ kv, Estimate.jobId kv.2 ≠ id) (estimates db);
      jobs_id_seq := jobs_id_seq db; estimates_id_seq := estimates_id_seq db |}).

(** [delete(jobs).where(eq(jobs.id, id)).returning()]: the foreign key of
    [estimates] refuses it while an estimate refers to the job. *)
Definition deleteJobRow (id : Z) : Async (list Job.t) := λ db,
  match jobs db !! id with
  | Some row =>
      if referenced id (estimates db)
      then (Throw "update or delete on table violates foreign key constraint", db)
      else (Ok [row],
            {| jobs := delete id (jobs db); estimates := estimates db;
               jobs_id_seq := jobs_id_seq db; estimates_id_seq := estimates_id_seq db |})
  | None => (Ok [], db)
  end.

Definition deleteJob (id : Z) : Async bool :=
  (* First delete all estimates for this job *)
  await tryCatch (deleteEstimatesOfJob id) (ret ()) ;;
  (* Then delete the job *)
  const result := await deleteJobRow id ;;
  ret (bool_decide (0 < length result)%nat).

(** *** Estimate operations *)

Definition getEstimates : Async (list Estimate.t) := λ db,
  (Ok (rows (estimates db)), db).

Definition getEstimatesByJobId (jobId : Z) : Async (list Estimate.t) := λ db,
  (Ok (rows (estimatesOf jobId (estimates db))), db).

Definition getEstimate (id : Z) : Async (option Estimate.t) := λ db,
  (Ok (estimates db !! id), db).

(** [insert(estimates).values(row).returning()]: [jobId] has to be an
    integer and the id of a job. *)
Definition insertEstimate (jobId : JS.number) (row : Z → Z → Estimate.t) : Async Estimate.t := λ db,
  match toInteger jobId with
  | None => (Throw "invalid input syntax for type integer", db)
  | Some j =>
      let id := estimates_id_seq db in
      let db' := {| jobs := jobs db; estimates := estimates db;
                    jobs_id_seq := jobs_id_seq db; estimates_id_seq := id + 1 |} in
      match estimates db !! id, jobs db !! j with
      | Some _, _ => (Throw "duplicate key value violates unique constraint", db')
      | None, None => (Throw "insert or update on table violates foreign key constraint", db')
      | None, Some _ =>
          (Ok (row id j),
           {| jobs := jobs db; estimates := <[id := row id j]> (estimates db);
              jobs_id_seq := jobs_id_seq db; estimates_id_seq := id + 1 |})
      end
  end.

Definition createEstimate (now : Z) (insertEstimate_ : InsertEstimate.t) : Async Estimate.t :=
  const result := await insertEstimate (InsertEstimate.jobId insertEstimate_) (λ id jobId,
    {| Estimate.id := id;
       Estimate.jobId := jobId;
       Estimate.description := orNull (InsertEstimate.description insertEstimate_);
       Estimate.pipeLength := InsertEstimate.pipeLength insertEstimate_;
       Estimate.trenchWidth := InsertEstimate.trenchWidth insertEstimate_;
       Estimate.trenchDepth := InsertEstimate.trenchDepth insertEstimate_;
       Estimate.cubicYards := InsertEstimate.cubicYards insertEstimate_;
       Estimate.materialWeight :=
         default defaultMaterialWeight (InsertEstimate.materialWeight insertEstimate_);
       Estimate.importUnitCost :=
         default defaultImportUnitCost (InsertEstimate.importUnitCost insertEstimate_);
       Estimate.estimatedHours :=
         Some (numOr (InsertEstimate.estimatedHours insertEstimate_) (JS.ofZ 0));
       Estimate.notes := orNull (InsertEstimate.notes insertEstimate_);
       Estimate.createdAt := Some now |}) ;;
  ret result.

(** [update(estimates).set(validData)]: the columns that [validData] has;
    [jobId] is given as the integer it is.  A job id that changes has to be
    the id of a job. *)
Definition setEstimate (validData : PartialEstimate.t) (jobId : option Z)
    (row : Estimate.t) : Estimate.t :=
  {| Estimate.id := Estimate.id row;
     Estimate.jobId := default (Estimate.jobId row) jobId;
     Estimate.description :=
       default (Estimate.description row) (PartialEstimate.description validData);
     Estimate.pipeLength :=
       default (Estimate.pipeLength row) (PartialEstimate.pipeLength validData);
     Estimate.trenchWidth :=
       default (Estimate.trenchWidth row) (PartialEstimate.trenchWidth validData);
     Estimate.trenchDepth :=
       default (Estimate.trenchDepth row) (PartialEstimate.trenchDepth validData);
     Estimate.cubicYards :=
       default (Estimate.cubicYards row) (PartialEstimate.cubicYards validData);
     Estimate.materialWeight :=
       default (Estimate.materialWeight row) (PartialEstimate.materialWeight validData);
     Estimate.importUnitCost :=
       default (Estimate.importUnitCost row) (PartialEstimate.importUnitCost validData);
     Estimate.estimatedHours :=
       default (Estimate.estimatedHours row) (PartialEstimate.estimatedHours validData);
     Estimate.createdAt := Estimate.createdAt row;
     Estimate.notes := default (Estimate.notes row) (PartialEstimate.notes validData) |}.

Definition noEstimateColumns (validData : PartialEstimate.t) : bool :=
  match validData with
  | PartialEstimate.Build_t None None None None None None None None None _ None => true
  | _ => false
  end.

Definition updateEstimate (id : Z) (updateData : PartialEstimate.t)
    : Async (option Estimate.t) :=
  let validData :=
    {| PartialEstimate.jobId := PartialEstimate.jobId updateData;
       PartialEstimate.description := PartialEstimate.description updateData;
       PartialEstimate.pipeLength := PartialEstimate.pipeLength updateData;
       PartialEstimate.trenchWidth := PartialEstimate.trenchWidth updateData;
       PartialEstimate.trenchDepth := PartialEstimate.trenchDepth updateData;
       PartialEstimate.cubicYards := PartialEstimate.cubicYards updateData;
       PartialEstimate.materialWeight := PartialEstimate.materialWeight updateData;
       PartialEstimate.importUnitCost := PartialEstimate.importUnitCost updateData;
       PartialEstimate.estimatedHours := PartialEstimate.estimatedHours updateData;
       PartialEstimate.createdAt := None;
       PartialEstimate.notes := PartialEstimate.notes updateData |} in
  if noEstimateColumns validData then throw "No values to set" else
  λ db,
  match PartialEstimate.jobId validData, from_option toInteger None (PartialEstimate.jobId validData) with
  | Some _, None => (Throw "invalid input syntax for type integer", db)
  | _, jobId =>
      match estimates db !! id with
      | Some row =>
          let row' := setEstimate validData jobId row in
          if bool_decide (Estimate.jobId row' = Estimate.jobId row)
             || bool_decide (is_Some (jobs db !! Estimate.jobId row'))
          then
            (Ok (Some row'),
             {| jobs := jobs db; estimates := <[id := row']> (estimates db);
                jobs_id_seq := jobs_id_seq db;
                estimates_id_seq := estimates_id_seq db |})
          else
            (Throw "insert or update on table violates foreign key constraint", db)
      | None => (Ok None, db)
      end
  end.

Definition deleteEstimate (id : Z) : Async bool := λ db,
  match estimates db !! id with
  | Some _ =>
      (Ok true,
       {| jobs := jobs db; estimates := delete id (estimates db);
          jobs_id_seq := jobs_id_seq db; estimates_id_seq := estimates_id_seq db |})
  | None => (Ok false, db)
  end.

End DbStorage.

(** ** server/routes *)

Module Routes.

Inductive Payload :=
  | Jobs (jobs : list Job.t)
  | AJob (job : Job.t)
  | Estimates (estimates : list Estimate.t)
  | AnEstimate (estimate : Estimate.t)
  | Message (message : string)
  | Invalid (message : string) (errors : list Zod.ZodIssue)
  | End.

Record Response := { status : Z; payload : Payload }.

#[global] Instance Payload_eq_dec : EqDecision Payload.
Proof. solve_decision. Defined.
#[global] Instance Response_eq_dec : EqDecision Response.
Proof. solve_decision. Defined.

Definition json_ (status : Z) (payload : Payload) : Async Response :=
  ret {| status := status; payload := payload |}.

(** [try { handler } catch (error) { return res.status(500).json({ message }) }] *)
Definition try (handler : Async Response) (message : string) : Db → Response * Db := λ db,
  match handler db with
  | (Ok res, db') => (res, db')
  | (Throw _, db') => ({| status := 500; payload := Message message |}, db')
  end.

(** The error of a failed [safeParse]. *)
Definition errorOf {A} (parseResult : Zod.ParseResult A) : list Zod.ZodIssue :=
  match parseResult with
  | Zod.Valid _ => []
  | Zod.Dirty issues | Zod.Aborted issues => issues
  end.

(** *** Jobs API routes.  A route parameter [id] is the integer that
    [parseInt] reads from the path. *)

Definition get_jobs : Db → Response * Db :=
  try (const jobs := await DbStorage.getJobs ;;
       json_ 200 (Jobs jobs))
      "Failed to fetch jobs".

Definition get_job (jobId : Z) : Db → Response * Db :=
  try (const job := await DbStorage.getJob jobId ;;
       match job with
       | None => json_ 404 (Message "Job not found")
       | Some job => json_ 200 (AJob job)
       end)
      "Failed to fetch job".

Definition post_jobs (body : json) : Db → Response * Db :=
  try (let parseResult := Schema.insertJobSchema body in
       match parseResult with
       | Zod.Valid data =>
           const job := await DbStorage.createJob data ;;
           json_ 201 (AJob job)
       | _ => json_ 400 (Invalid "Invalid job data" (errorOf parseResult))
       end)
      "Failed to create job".

Definition put_job (jobId : Z) (body : json) : Db → Response * Db :=
  try (let parseResult := Schema.insertJobSchema_partial body in
       match parseResult with
       | Zod.Valid data =>
           const updatedJob := await DbStorage.updateJob jobId data ;;
           match updatedJob with
           | None => json_ 404 (Message "Job not found")
           | Some updatedJob => json_ 200 (AJob updatedJob)
           end
       | _ => json_ 400 (Invalid "Invalid job data" (errorOf parseResult))
       end)
      "Failed to update job".

Definition delete_job (jobId : Z) : Db → Response * Db :=
  try (const success := await DbStorage.deleteJob jobId ;;
       if negb success then json_ 404 (Message "Job not found")
       else json_ 204 End)
      "Failed to delete job".

(** *** Estimates API routes.  [jobId] of the query is the integer that
    [parseInt] reads from it, when there is one. *)

Definition get_estimates (jobId : option Z) : Db → Response * Db :=
  try (const estimates :=
         await match jobId with
               | Some jobId =>
                   if bool_decide (jobId = 0%Z) then DbStorage.getEstimates
                   else DbStorage.getEstimatesByJobId jobId
               | None => DbStorage.getEstimates
               end ;;
       json_ 200 (Estimates estimates))
      "Failed to fetch estimates".

Definition get_estimate (estimateId : Z) : Db → Response * Db :=
  try (const estimate := await DbStorage.getEstimate estimateId ;;
       match estimate with
       | None => json_ 404 (Message "Estimate not found")
       | Some estimate => json_ 200 (AnEstimate estimate)
       end)
      "Failed to fetch estimate".

(** [typeof x === 'number' ? x : d] on a key that may be absent. *)
Definition numberOr (x : option JS.number) (d : JS.number) : JS.number :=
  match x with
  | Some x => x
  | None => d
  end.

Definition post_estimates (now : Z) (body : json) : Db → Response * Db :=
  try (let parseResult := Schema.estimateValidationSchema body in
       match parseResult with
       | Zod.Valid data =>
           (* Calculate cubic yards *)
           let pipeLength := InsertEstimate.pipeLength data in
           let trenchWidth := InsertEstimate.trenchWidth data in
           let trenchDepth := InsertEstimate.trenchDepth data in
           let cubicYards := calculateCubicYards pipeLength trenchWidth trenchDepth in
           (* Create estimate with calculated cubic yards and material weight *)
           const estimate := await DbStorage.createEstimate now
             {| InsertEstimate.jobId := InsertEstimate.jobId data;
                InsertEstimate.description := InsertEstimate.description data;
                InsertEstimate.pipeLength := InsertEstimate.pipeLength data;
                InsertEstimate.trenchWidth := InsertEstimate.trenchWidth data;
                InsertEstimate.trenchDepth := InsertEstimate.trenchDepth data;
                InsertEstimate.importUnitCost := InsertEstimate.importUnitCost data;
                InsertEstimate.estimatedHours := InsertEstimate.estimatedHours data;
                InsertEstimate.createdAt := InsertEstimate.createdAt data;
                InsertEstimate.notes := InsertEstimate.notes data;
                InsertEstimate.materialWeight :=
                  Some (numberOr (InsertEstimate.materialWeight data) (JS.ofZ 145));
                InsertEstimate.cubicYards := cubicYards |} ;;
           json_ 201 (AnEstimate estimate)
       | _ => json_ 400 (Invalid "Invalid estimate data" (errorOf parseResult))
       end)
      "Failed to create estimate".

Definition put_estimate (estimateId : Z) (body : json) : Db → Response * Db :=
  try (let parseResult := Schema.estimateValidationSchema_partial body in
       match parseResult with
       | Zod.Valid data =>
           const currentEstimate := await DbStorage.getEstimate estimateId ;;
           match currentEstimate with
           | None => json_ 404 (Message "Estimate not found")
           | Some currentEstimate =>
               (* Recalculate cubic yards if any dimensions are updated *)
               let cubicYards := Estimate.cubicYards currentEstimate in
               let pipeLength := PartialEstimate.pipeLength data in
               let trenchWidth := PartialEstimate.trenchWidth data in
               let trenchDepth := PartialEstimate.trenchDepth data in
               let materialWeight := PartialEstimate.materialWeight data in
               let cubicYards :=
                 if bool_decide (pipeLength ≠ None) || bool_decide (trenchWidth ≠ None)
                    || bool_decide (trenchDepth ≠ None)
                 then
                   let newPipeLength := default (Estimate.pipeLength currentEstimate) pipeLength in
                   let newTrenchWidth := default (Estimate.trenchWidth currentEstimate) trenchWidth in
                   let newTrenchDepth := default (Estimate.trenchDepth currentEstimate) trenchDepth in
                   calculateCubicYards newPipeLength newTrenchWidth newTrenchDepth
                 else cubicYards in
               (* Make sure to include material weight in the updated estimate *)
               const updatedEstimate := await DbStorage.updateEstimate estimateId
                 {| PartialEstimate.jobId := PartialEstimate.jobId data;
                    PartialEstimate.description := PartialEstimate.description data;
                    PartialEstimate.pipeLength := PartialEstimate.pipeLength data;
                    PartialEstimate.trenchWidth := PartialEstimate.trenchWidth data;
                    PartialEstimate.trenchDepth := PartialEstimate.trenchDepth data;
                    PartialEstimate.importUnitCost := PartialEstimate.importUnitCost data;
                    PartialEstimate.estimatedHours := PartialEstimate.estimatedHours data;
                    PartialEstimate.createdAt := PartialEstimate.createdAt data;
                    PartialEstimate.notes := PartialEstimate.notes data;
                    PartialEstimate.materialWeight :=
                      Some (numberOr materialWeight (Estimate.materialWeight currentEstimate));
                    PartialEstimate.cubicYards := Some cubicYards |} ;;
               match updatedEstimate with
               | None => json_ 404 (Message "Estimate not found")
               | Some updatedEstimate => json_ 200 (AnEstimate updatedEstimate)
               end
           end
       | _ => json_ 400 (Invalid "Invalid estimate data" (errorOf parseResult))
       end)
      "Failed to update estimate".

Definition delete_estimate (estimateId : Z) : Db → Response * Db :=
  try (const success := await DbStorage.deleteEstimate estimateId ;;
       if negb success then json_ 404 (Message "Estimate not found")
       else json_ 204 End)
      "Failed to delete estimate".

(** *** The server: a request, and the date at which it is served *)

Inductive Request :=
  | GET_jobs
  | GET_job (id : Z)
  | POST_jobs (body : json)
  | PUT_job (id : Z) (body : json)
  | DELETE_job (id : Z)
  | GET_estimates (jobId : option Z)
  | GET_estimate (id : Z)
  | POST_estimates (body : json)
  | PUT_estimate (id : Z) (body : json)
  | DELETE_estimate (id : Z).

Definition registerRoutes (now : Z) (req : Request) : Db → Response * Db :=
  match req with
  | GET_jobs => get_jobs
  | GET_job id => get_job id
  | POST_jobs body => post_jobs body
  | PUT_job id body => put_job id body
  | DELETE_job id => delete_job id
  | GET_estimates jobId => get_estimates jobId
  | GET_estimate id => get_estimate id
  | POST_estimates body => post_estimates now body
  | PUT_estimate id body => put_estimate id body
  | DELETE_estimate id => delete_estimate id
  end.

(** The database after a sequence of requests. *)
Definition serve (reqs : list (Z * Request)) (db : Db) : Db :=
  fold_left (λ db r, (registerRoutes r.1 r.2 db).2) reqs db.

End Routes.

(** ** client: LaborCalculator *)

Module LaborCalculator.

Record Costs := {
  excavator250Cost : JS.number;
  excavator200Cost : JS.number;
  loaderCost : JS.number;
  pipeGuyCost : JS.number;
  topGuyCost : JS.number;
  totalEquipmentCost : JS.number;
  totalCrewCost : JS.number;
}.

Definition EXCAVATOR_250_RATE : JS.number := JS.ofZ 250.
Definition EXCAVATOR_200_RATE : JS.number := JS.ofZ 200.
Definition LOADER_RATE : JS.number := JS.ofZ 200.
Definition PIPE_GUY_RATE : JS.number := JS.ofZ 45.
Definition TOP_GUY_RATE : JS.number := JS.ofZ 40.

(** The costs that the component computes from its property, which is 0
    when it is not given. *)
Definition costs (estimatedHours_ : option JS.number) : Costs :=
  let estimatedHours := default (JS.ofZ 0) estimatedHours_ in
  (* Calculate labor cost for 250 series excavator at $250/hour *)
  let excavator250Cost := JS.mul estimatedHours EXCAVATOR_250_RATE in
  (* Calculate labor cost for 200 series excavator at $200/hour *)
  let excavator200Cost := JS.mul estimatedHours EXCAVATOR_200_RATE in
  (* Calculate labor cost for 320 series loader at $200/hour *)
  let loaderCost := JS.mul estimatedHours LOADER_RATE in
  (* Calculate crew costs *)
  let pipeGuyCost := JS.mul estimatedHours PIPE_GUY_RATE in
  let topGuyCost := JS.mul estimatedHours TOP_GUY_RATE in
  (* Calculate total costs *)
  let totalEquipmentCost := JS.add (JS.add excavator250Cost excavator200Cost) loaderCost in
  let totalCrewCost := JS.add pipeGuyCost topGuyCost in
  {| excavator250Cost := excavator250Cost;
     excavator200Cost := excavator200Cost;
     loaderCost := loaderCost;
     pipeGuyCost := pipeGuyCost;
     topGuyCost := topGuyCost;
     totalEquipmentCost := totalEquipmentCost;
     totalCrewCost := totalCrewCost |}.

(** What the component shows as the total equipment cost. *)
Definition totalEquipmentCostText (estimatedHours_ : option JS.number) : string :=
  "$" +:+ JS.toFixed 2 (totalEquipmentCost (costs estimatedHours_)).

End LaborCalculator.

(** ** A small session, for examples *)

Module Demo.

Definition jnum (z : Z) : json := JNum (JS.ofZ z).

Definition job : json :=
  JObj (list_to_map
    [("name", JStr "Sewer main"); ("location", JStr "Main St"); ("client", JStr "City")]%string).

Definition estimateFields : gmap string json :=
  list_to_map
    [("jobId", jnum 1); ("pipeLength", jnum 100); ("trenchWidth", jnum 2);
     ("trenchDepth", jnum 3); ("cubicYards", jnum 0); ("materialWeight", jnum 145);
     ("importUnitCost", JNum (num 2450 100)); ("estimatedHours", jnum 8)]%string.

Definition estimate : json := JObj estimateFields.




Definition jobData : InsertJob.t :=
  {| InsertJob.name := "Sewer main"; InsertJob.location := "Main St";
     InsertJob.client := "City"; InsertJob.startDate := None;
     InsertJob.status := None; InsertJob.notes := None |}.


(** A job is created, then an estimate for it. *)
Definition requests : list (Z * Routes.Request) :=
  [(0, Routes.POST_jobs job); (1, Routes.POST_estimates estimate)]%Z.

Definition db : Db := Routes.serve requests emptyDb.

(** The estimate that the session leaves in the database. *)
Definition row : Estimate.t :=
  {| Estimate.id := 1; Estimate.jobId := 1; Estimate.description := None;
     Estimate.pipeLength := JS.ofZ 100; Estimate.trenchWidth := JS.ofZ 2;
     Estimate.trenchDepth := JS.ofZ 3; Estimate.cubicYards := num 2222 100;
     Estimate.materialWeight := JS.ofZ 145; Estimate.importUnitCost := num 2450 100;
     Estimate.estimatedHours := Some (JS.ofZ 8); Estimate.createdAt := Some 1%Z;
     Estimate.notes := None |}.



(** An update of the pipe length alone. *)
Definition longer : json := JObj (list_to_map [("pipeLength", jnum 10)]%string).

Definition longerData : PartialEstimate.t :=
  {| PartialEstimate.jobId := None; PartialEstimate.description := None;
     PartialEstimate.pipeLength := Some (JS.ofZ 10);
     PartialEstimate.trenchWidth := None; PartialEstimate.trenchDepth := None;
     PartialEstimate.cubicYards := None; PartialEstimate.materialWeight := None;
     PartialEstimate.importUnitCost := None; PartialEstimate.estimatedHours := None;
     PartialEstimate.createdAt := None; PartialEstimate.notes := None |}.

End Demo.

(** ** The vocabulary of the properties *)

(** *** Numbers *)

(** Digit values, each below ten. *)
Definition isDigits (ds : list N) : Prop := Forall (λ d, d < 10)%N ds.

(** [r] is [x] rounded to two decimal places, a tie going up: [r] is a whole
    number of hundredths and [x - 1/200 < r <= x + 1/200]. *)
Definition roundedTo2 (x r : Qc) : Prop :=
  (∃ n : Z, r = Qc_of_Z n / Qc_of_Z 100)%Qc
  ∧ (x - Q2Qc (1 # 200) < r)%Qc ∧ (r ≤ x + Q2Qc (1 # 200))%Qc.

(** *** The database *)

(** Every row sits under its own id, below the next value of the sequence,
    and every estimate refers to a job. *)
Definition wf (db : Db) : Prop :=
  map_Forall (λ id j, Job.id j = id ∧ (id < jobs_id_seq db)%Z) (jobs db)
  ∧ map_Forall (λ id e, Estimate.id e = id ∧ (id < estimates_id_seq db)%Z
                        ∧ is_Some (jobs db !! Estimate.jobId e)) (estimates db).

(** An operation keeps a property of the database. *)
Definition preserves (P : Db → Prop) {A} (m : Async A) : Prop :=
  ∀ db, P db → P (m db).2.

(** The stored cubicYards of an estimate is the one computed from its stored
    dimensions. *)
Definition cubicYardsComputed (e : Estimate.t) : Prop :=
  Estimate.cubicYards e
  = calculateCubicYards (Estimate.pipeLength e) (Estimate.trenchWidth e)
      (Estimate.trenchDepth e).

Definition allComputed (db : Db) : Prop :=
  map_Forall (λ _ e, cubicYardsComputed e) (estimates db).

(** *** What the handlers store *)


(** The row that POST /api/estimates stores for validated [data]. *)
Definition createdEstimate (now id jobId : Z) (data : InsertEstimate.t) : Estimate.t :=
  {| Estimate.id := id;
     Estimate.jobId := jobId;
     Estimate.description := orNull (InsertEstimate.description data);
     Estimate.pipeLength := InsertEstimate.pipeLength data;
     Estimate.trenchWidth := InsertEstimate.trenchWidth data;
     Estimate.trenchDepth := InsertEstimate.trenchDepth data;
     Estimate.cubicYards :=
       calculateCubicYards (InsertEstimate.pipeLength data)
         (InsertEstimate.trenchWidth data) (InsertEstimate.trenchDepth data);
     Estimate.materialWeight :=
       Routes.numberOr (InsertEstimate.materialWeight data) (JS.ofZ 145);
     Estimate.importUnitCost :=
       default defaultImportUnitCost (InsertEstimate.importUnitCost data);
     Estimate.estimatedHours :=
       Some (numOr (InsertEstimate.estimatedHours data) (JS.ofZ 0));
     Estimate.createdAt := Some now;
     Estimate.notes := orNull (InsertEstimate.notes data) |}.

(** The database with the row [e] under [id] in estimates, or [j] under
    [id] in jobs, and the sequence of the table at [seq]. *)
Definition withEstimate (id : Z) (e : Estimate.t) (seq : Z) (db : Db) : Db :=
  {| jobs := jobs db; estimates := <[id := e]> (estimates db);
     jobs_id_seq := jobs_id_seq db; estimates_id_seq := seq |}.

Definition withJob (id : Z) (j : Job.t) (seq : Z) (db : Db) : Db :=
  {| jobs := <[id := j]> (jobs db); estimates := estimates db;
     jobs_id_seq := seq; estimates_id_seq := estimates_id_seq db |}.

(** The row that POST /api/jobs stores for validated [data]. *)
Definition createdJob (id : Z) (data : InsertJob.t) : Job.t :=
  {| Job.id := id;
     Job.name := InsertJob.name data;
     Job.location := InsertJob.location data;
     Job.client := InsertJob.client data;
     Job.startDate := orNull (InsertJob.startDate data);
     Job.status := strOr (InsertJob.status data) "pending";
     Job.notes := orNull (InsertJob.notes data) |}.

(** One of pipeLength, trenchWidth, trenchDepth is a key of [data]. *)
Definition dimensionsIn (data : PartialEstimate.t) : bool :=
  bool_decide (PartialEstimate.pipeLength data ≠ None)
  || bool_decide (PartialEstimate.trenchWidth data ≠ None)
  || bool_decide (PartialEstimate.trenchDepth data ≠ None).

(** The row that PUT /api/estimates/:id stores over [cur] for validated
    [data]: the keys of [data] replace the columns of [cur], except that
    cubicYards is computed from the merged dimensions when one of them is in
    [data], and is the stored one otherwise. *)
Definition updatedEstimate (data : PartialEstimate.t) (jobId : option Z)
    (cur : Estimate.t) : Estimate.t :=
  let pipeLength := default (Estimate.pipeLength cur) (PartialEstimate.pipeLength data) in
  let trenchWidth := default (Estimate.trenchWidth cur) (PartialEstimate.trenchWidth data) in
  let trenchDepth := default (Estimate.trenchDepth cur) (PartialEstimate.trenchDepth data) in
  {| Estimate.id := Estimate.id cur;
     Estimate.jobId := default (Estimate.jobId cur) jobId;
     Estimate.description :=
       default (Estimate.description cur) (PartialEstimate.description data);
     Estimate.pipeLength := pipeLength;
     Estimate.trenchWidth := trenchWidth;
     Estimate.trenchDepth := trenchDepth;
     Estimate.cubicYards :=
       if dimensionsIn data
       then calculateCubicYards pipeLength trenchWidth trenchDepth
       else Estimate.cubicYards cur;
     Estimate.materialWeight :=
       default (Estimate.materialWeight cur) (PartialEstimate.materialWeight data);
     Estimate.importUnitCost :=
       default (Estimate.importUnitCost cur) (PartialEstimate.importUnitCost data);
     Estimate.estimatedHours :=
       default (Estimate.estimatedHours cur) (PartialEstimate.estimatedHours data);
     Estimate.createdAt := Estimate.createdAt cur;
     Estimate.notes := default (Estimate.notes cur) (PartialEstimate.notes data) |}.

(** The job id of an update is acceptable: it is an integer, and either the
    job id the estimate has or the id of a job. *)
Definition jobIdAccepted (db : Db) (cur : Estimate.t) (x : option JS.number)
    (jobId : option Z) : Prop :=
  match x with
  | None => jobId = None
  | Some x =>
      ∃ j, toInteger x = Some j ∧ jobId = Some j
           ∧ (j = Estimate.jobId cur ∨ is_Some (jobs db !! j))
  end.



(** The database after [deleteJob id]. *)
Definition withoutJob (id : Z) (db : Db) : Db :=
  {| jobs := delete id (jobs db);
     estimates := filter (λ kv, Estimate.jobId kv.2 ≠ id) (estimates db);
     jobs_id_seq := jobs_id_seq db; estimates_id_seq := estimates_id_seq db |}.

(** *** Reading back what was created *)




(** *** The status of a job *)





(** ** client: VolumeCalculator *)

Module VolumeCalculator.

Record Costs := {
  haulOffCharge : JS.number;
  tonsPerCubicYard : JS.number;
  totalTons : JS.number;
  importCost : JS.number;
}.

Definition HAUL_OFF_RATE : JS.number := num 3750 100.

(** The figures that the component computes from its properties;
    materialWeight is 145 and importUnitCost 24.50 when they are not given. *)
Definition costs (cubicYards : JS.number) (materialWeight_ importUnitCost_ : option JS.number)
    : Costs :=
  let materialWeight := default (JS.ofZ 145) materialWeight_ in
  let importUnitCost := default (num 2450 100) importUnitCost_ in
  (* Calculate haul off and disposal charge ($37.50 per cubic yard) *)
  let haulOffCharge := JS.mul cubicYards HAUL_OFF_RATE in
  (* Formula: (pounds per cubic foot × 27) ÷ 2000 = tons per cubic yard *)
  let tonsPerCubicYard := JS.div (JS.mul materialWeight (JS.ofZ 27)) (JS.ofZ 2000) in
  (* Calculate total weight in tons *)
  let totalTons := JS.mul tonsPerCubicYard cubicYards in
  (* Calculate import cost (unit cost × total weight in tons) *)
  let importCost := JS.mul importUnitCost totalTons in
  {| haulOffCharge := haulOffCharge;
     tonsPerCubicYard := tonsPerCubicYard;
     totalTons := totalTons;
     importCost := importCost |}.

End VolumeCalculator.

(** ** The vocabulary of the further properties *)

(** The three dimensions of a stored estimate are positive. *)
Definition positiveDimensions (e : Estimate.t) : Prop :=
  JS.gt0 (Estimate.pipeLength e) = true
  ∧ JS.gt0 (Estimate.trenchWidth e) = true
  ∧ JS.gt0 (Estimate.trenchDepth e) = true.

(** A volume: infinite, or a nonnegative whole number of hundredths. *)
Definition isVolume (x : JS.number) : Prop :=
  x = JS.Inf false
  ∨ ∃ n : Z, (0 ≤ n)%Z ∧ x = JS.Fin (Qc_of_Z n / Qc_of_Z 100)%Qc.

(** [x ≤ y] on numbers that are finite. *)
Definition numLe (x y : JS.number) : Prop :=
  match x, y with
  | JS.Fin a, JS.Fin b => (a ≤ b)%Qc
  | _, _ => False
  end.

(** The ids are counted from 1: the sequences and the keys of both tables. *)
Definition keysFrom1 (db : Db) : Prop :=
  (1 ≤ jobs_id_seq db)%Z ∧ (1 ≤ estimates_id_seq db)%Z
  ∧ map_Forall (λ k _, (1 ≤ k)%Z) (jobs db)
  ∧ map_Forall (λ k _, (1 ≤ k)%Z) (estimates db).

(** The keys that a body of POST /api/estimates has to have. *)
Definition requiredEstimateKeys : list string :=
  ["jobId"; "pipeLength"; "trenchWidth"; "trenchDepth"; "cubicYards";
   "materialWeight"; "importUnitCost"; "estimatedHours"]%string.

(** The keys that a body of POST /api/jobs has to have. *)
Definition requiredJobKeys : list string := ["name"; "location"; "client"]%string.

(** A request that only reads. *)
Definition isGet (req : Routes.Request) : bool :=
  match req with
  | Routes.GET_jobs | Routes.GET_job _ | Routes.GET_estimates _ | Routes.GET_estimate _ => true
  | _ => false
  end.

(** * Properties *)


(** [lia] with division and modulo by constants. *)
Ltac Zify.zify_post_hook ::= Z.to_euclidean_division_equations.

(** ** Decimal digits: printing and reading back *)

Section Digits.

Implicit Types (ds : list N) (n d : N) (s r : list ascii).

Lemma digitVal_digitChar d : (d < 10)%N → JS.digitVal (JS.digitChar d) = Some d.
Proof.
  intros Hd. unfold JS.digitVal, JS.digitChar.
  rewrite N_ascii_embedding by lia.
  replace ((48 <=? 48 + d)%N && (48 + d <=? 57)%N) with true.
  - f_equal. lia.
  - symmetry. apply andb_true_iff. split; apply N.leb_le; lia.
Qed.

Lemma digitsValue_snoc ds d :
  JS.digitsValue (ds ++ [d]) = (10 * JS.digitsValue ds + d)%N.
Proof. unfold JS.digitsValue. by rewrite fold_left_app. Qed.

Lemma digitsValue_app ds1 ds2 :
  JS.digitsValue (ds1 ++ ds2)
  = (JS.digitsValue ds1 * 10 ^ N.of_nat (length ds2) + JS.digitsValue ds2)%N.
Proof.
  induction ds2 as [|d ds2 IH] using rev_ind.
  - rewrite app_nil_r. simpl. unfold JS.digitsValue at 3. simpl. lia.
  - rewrite app_assoc, !digitsValue_snoc, IH, length_app. simpl.
    replace (N.of_nat (length ds2 + 1)) with (N.succ (N.of_nat (length ds2))) by lia.
    rewrite N.pow_succ_r'. lia.
Qed.

Lemma digitsValue_zeros k ds :
  JS.digitsValue (replicate k 0%N ++ ds) = JS.digitsValue ds.
Proof.
  induction k as [|k IH]; [done|].
  simpl. unfold JS.digitsValue in *. simpl. exact IH.
Qed.

Lemma digitsAux_spec fuel : ∀ n dacc,
  (n < 2 ^ N.of_nat fuel)%N → (0 < fuel)%nat →
  ∃ ds, JS.digitsAux fuel n (map JS.digitChar dacc) = map JS.digitChar (ds ++ dacc)
        ∧ isDigits ds ∧ JS.digitsValue ds = n ∧ ds ≠ [].
Proof.
  induction fuel as [|fuel IH]; intros n dacc Hn Hf; [lia|].
  simpl. destruct (N.eqb_spec (n / 10) 0) as [Hq|Hq].
  - exists [n mod 10]%N. repeat split; try done.
    + repeat constructor. apply N.mod_lt. lia.
    + unfold JS.digitsValue. simpl.
      pose proof (N.div_mod n 10 ltac:(lia)). lia.
  - assert (Hlt : (n / 10 < 2 ^ N.of_nat fuel)%N).
    { replace (N.of_nat (S fuel)) with (N.succ (N.of_nat fuel)) in Hn by lia.
      rewrite N.pow_succ_r' in Hn.
      apply N.Div0.div_lt_upper_bound. lia. }
    destruct fuel as [|fuel'].
    { change (2 ^ N.of_nat 0)%N with 1%N in Hlt. lia. }
    destruct (IH (n / 10)%N ((n mod 10)%N :: dacc) Hlt ltac:(lia))
      as (ds & Heq & Hds & Hv & _).
    exists (ds ++ [n mod 10]%N). repeat split.
    + change (JS.digitChar (n mod 10) :: map JS.digitChar dacc)
        with (map JS.digitChar ((n mod 10)%N :: dacc)).
      rewrite Heq. by rewrite <- app_assoc.
    + apply Forall_app. split; [done|]. repeat constructor. apply N.mod_lt. lia.
    + rewrite digitsValue_snoc, Hv.
      pose proof (N.div_mod n 10 ltac:(lia)). lia.
    + by destruct ds.
Qed.

Lemma decimalDigits_spec n :
  ∃ ds, JS.decimalDigits n = map JS.digitChar ds
        ∧ isDigits ds ∧ JS.digitsValue ds = n ∧ ds ≠ [].
Proof.
  unfold JS.decimalDigits.
  destruct (digitsAux_spec (S (N.to_nat (N.log2 n))) n []) as (ds & Heq & H);
    [|lia|].
  - destruct (N.eq_dec n 0%N) as [->|Hn]; [done|].
    replace (N.of_nat (S (N.to_nat (N.log2 n)))) with (N.succ (N.log2 n)) by lia.
    apply N.log2_spec. lia.
  - exists ds. simpl in Heq. rewrite app_nil_r in Heq. done.
Qed.

Lemma scanDigits_digits ds r :
  isDigits ds →
  match r with [] => True | c :: _ => JS.digitVal c = None end →
  JS.scanDigits (map JS.digitChar ds ++ r) = (ds, r).
Proof.
  intros Hds Hr. induction Hds as [|d ds Hd _ IH]; simpl.
  - destruct r as [|c r]; [done|]. simpl. by rewrite Hr.
  - rewrite digitVal_digitChar by done. by rewrite IH.
Qed.

Lemma isDigits_cases d : (d < 10)%N →
  d = 0%N ∨ d = 1%N ∨ d = 2%N ∨ d = 3%N ∨ d = 4%N ∨ d = 5%N ∨ d = 6%N
  ∨ d = 7%N ∨ d = 8%N ∨ d = 9%N.
Proof. lia. Qed.

(** Case analysis on a digit: each case is closed by computation. *)
Ltac each_digit H :=
  destruct (isDigits_cases _ H) as [->|[->|[->|[->|[->|[->|[->|[->|[->| ->]]]]]]]]].

Lemma digitChar_not_space d : (d < 10)%N → JS.isWhiteSpace (JS.digitChar d) = false.
Proof. intros H. by each_digit H. Qed.

Lemma trimStart_digit d r : (d < 10)%N →
  JS.trimStart (JS.digitChar d :: r) = JS.digitChar d :: r.
Proof. intros H. simpl. by rewrite digitChar_not_space. Qed.

Lemma trimEnd_digit s d : (d < 10)%N →
  JS.trimEnd (s ++ [JS.digitChar d]) = s ++ [JS.digitChar d].
Proof.
  intros H. unfold JS.trimEnd. rewrite rev_app_distr.
  change (rev [JS.digitChar d] ++ rev s) with (JS.digitChar d :: rev s).
  rewrite trimStart_digit by done.
  change (JS.digitChar d :: rev s) with (rev [JS.digitChar d] ++ rev s).
  by rewrite <- rev_app_distr, rev_involutive.
Qed.

(** A digit string with a point in it reads back as its digits. *)
Lemma scanUnsigned_fixed (a b : list N) :
  isDigits a → isDigits b → a ≠ [] →
  JS.scanUnsigned (map JS.digitChar a ++ "."%char :: map JS.digitChar b)
  = Some (JS.Fin (JS.decimalValue (JS.digitsValue (a ++ b)) (length b) 0), []).
Proof.
  intros Ha Hb Hne. unfold JS.scanUnsigned.
  assert (Hinf : JS.stripPrefix (list_ascii_of_string "Infinity")
            (map JS.digitChar a ++ "."%char :: map JS.digitChar b) = None).
  { destruct Ha as [|d a Hd _]; [done|]. by each_digit Hd. }
  rewrite Hinf.
  rewrite (scanDigits_digits a ("."%char :: map JS.digitChar b)) by done.
  rewrite <- (app_nil_r (map JS.digitChar b)).
  rewrite (scanDigits_digits b []) by done.
  destruct a as [|d a]; [done|]. by destruct b.
Qed.

Lemma nonDecimal_fixed (a b : list N) :
  isDigits a →
  JS.nonDecimal (map JS.digitChar a ++ "."%char :: map JS.digitChar b) = None.
Proof.
  intros Ha. destruct Ha as [|d a Hd Ha]; [done|].
  destruct Ha as [|d' a Hd' _].
  - by each_digit Hd.
  - each_digit Hd; try done; by each_digit Hd'.
Qed.

Lemma scanDecimal_fixed (a b : list N) :
  isDigits a → isDigits b → a ≠ [] →
  JS.scanDecimal (map JS.digitChar a ++ "."%char :: map JS.digitChar b)
  = Some (JS.Fin (JS.decimalValue (JS.digitsValue (a ++ b)) (length b) 0), []).
Proof.
  intros Ha Hb Hne. rewrite <- scanUnsigned_fixed by done.
  destruct Ha as [|d a Hd _]; [done|]. by each_digit Hd.
Qed.

Lemma trim_fixed (pre : list ascii) (a b : list N) :
  isDigits a → isDigits b → a ≠ [] → b ≠ [] →
  pre = [] ∨ pre = ["-"%char] →
  let s := pre ++ map JS.digitChar a ++ "."%char :: map JS.digitChar b in
  JS.trim s = s.
Proof.
  intros Ha Hb Hna Hnb Hpre s. unfold JS.trim.
  assert (Hs : JS.trimStart s = s).
  { subst s. destruct Hpre as [-> | ->]; [|done].
    destruct Ha as [|d a Hd _]; [done|]. simpl. by rewrite digitChar_not_space. }
  rewrite Hs. subst s.
  destruct (exists_last Hnb) as (b' & d & ->).
  assert (Hd : (d < 10)%N).
  { apply Forall_app in Hb as [_ Hd]. by inversion Hd. }
  replace (pre ++ map JS.digitChar a ++ "."%char :: map JS.digitChar (b' ++ [d]))
    with ((pre ++ map JS.digitChar a ++ "."%char :: map JS.digitChar b')
          ++ [JS.digitChar d]).
  - by apply trimEnd_digit.
  - rewrite map_app, <- !app_assoc. done.
Qed.

(** [Number] of the digits printed by [toFixed]. *)
Lemma NumberChars_fixed (neg : bool) (a b : list N) :
  isDigits a → isDigits b → a ≠ [] → b ≠ [] →
  JS.NumberChars ((if neg then ["-"%char] else [])
                  ++ map JS.digitChar a ++ "."%char :: map JS.digitChar b)
  = let v := JS.Fin (JS.decimalValue (JS.digitsValue (a ++ b)) (length b) 0) in
    if neg then JS.negate v else v.
Proof.
  intros Ha Hb Hna Hnb. unfold JS.NumberChars.
  rewrite trim_fixed by (try done; destruct neg; auto).
  destruct neg; simpl app.
  - simpl JS.nonDecimal. unfold JS.scanDecimal.
    rewrite scanUnsigned_fixed by done. done.
  - pose proof (nonDecimal_fixed a b Ha) as Hnd.
    pose proof (scanDecimal_fixed a b Ha Hb Hna) as Hsd.
    destruct (map JS.digitChar a ++ "."%char :: map JS.digitChar b) eqn:E.
    + by destruct a.
    + by rewrite Hnd, Hsd.
Qed.

(** The shape of what [toFixed] prints for a finite value. *)
Lemma toFixedChars_Fin (f : nat) (q : Qc) :
  (0 < f)%nat →
  ∃ a b : list N,
    JS.toFixedChars f (JS.Fin q)
    = (if JS.isNeg q then ["-"%char] else [])
      ++ map JS.digitChar a ++ "."%char :: map JS.digitChar b
    ∧ isDigits a ∧ isDigits b ∧ a ≠ [] ∧ length b = f
    ∧ JS.digitsValue (a ++ b) = Z.to_N (JS.nearestScaled f (Qabs q)).
Proof.
  intros Hf. destruct f as [|f]; [lia|].
  unfold JS.toFixedChars.
  destruct (decimalDigits_spec (Z.to_N (JS.nearestScaled (S f) (Qabs q))))
    as (ds & -> & Hds & Hv & Hne).
  rewrite length_map.
  set (k0 := (S f + 1 - length ds)%nat).
  change "0"%char with (JS.digitChar 0).
  replace (replicate k0 (JS.digitChar 0)) with (map JS.digitChar (replicate k0 0%N))
    by (clear; induction k0; simpl; congruence).
  rewrite <- map_app.
  set (pad := replicate k0 0%N ++ ds).
  rewrite length_map, firstn_map, skipn_map.
  assert (Hlen : (S f + 1 <= length pad)%nat).
  { subst pad k0. rewrite length_app, length_replicate. lia. }
  assert (Hpad : isDigits pad).
  { subst pad. apply Forall_app. split; [|done].
    apply Forall_replicate. lia. }
  exists (take (length pad - S f) pad), (drop (length pad - S f) pad).
  repeat split.
  - by apply Forall_take.
  - by apply Forall_drop.
  - intros E. apply (f_equal length) in E. rewrite length_take in E.
    simpl in E. lia.
  - rewrite length_drop. lia.
  - rewrite take_drop. subst pad. by rewrite digitsValue_zeros.
Qed.

End Digits.

(** ** Rounding to two places *)

(** A decidable proposition settled by evaluation. *)
Ltac by_compute := apply (bool_decide_unpack _); vm_compute; exact I.

(** From canonical rationals to [Q], where [lra] works. *)
Ltac qc2q :=
  repeat progress
    (unfold Qclt, Qcle, Qcdiv, Qcinv, Qcmult, Qcplus, Qcminus, Qcopp, Qc_of_Z, Q2Qc in *;
     cbn [this] in *; rewrite ?Qred_correct in *).

Section Rounding.

Local Open Scope Qc_scope.

Lemma nearestScaled_nonneg f (x : Q) : (0 <= x)%Q → (0 <= JS.nearestScaled f x)%Z.
Proof.
  intros Hx. unfold JS.nearestScaled.
  change 0%Z with (Qfloor 0). apply Qfloor_resp_le.
  assert (0 <= x * inject_Z (JS.pow10 f))%Q.
  { apply Qmult_le_0_compat; [done|].
    change 0%Q with (inject_Z 0). rewrite <- Zle_Qle. unfold JS.pow10. lia. }
  lra.
Qed.

Lemma Number_toFixed_2 (q : Qc) :
  JS.Number (JS.toFixed 2 (JS.Fin q))
  = let r := Qc_of_Z (JS.nearestScaled 2 (Qabs q)) / Qc_of_Z 100 in
    JS.Fin (if JS.isNeg q then - r else r).
Proof.
  unfold JS.Number, JS.toFixed. rewrite list_ascii_of_string_of_list_ascii.
  destruct (toFixedChars_Fin 2 q ltac:(lia)) as (a & b & -> & Ha & Hb & Hna & Hlen & Hv).
  rewrite NumberChars_fixed; [|done|done|done|by destruct b].
  rewrite Hv, Hlen. clear Hv.
  pose proof (nearestScaled_nonneg 2 (Qabs q) (Qabs_nonneg q)) as Hn.
  assert (E : JS.decimalValue (Z.to_N (JS.nearestScaled 2 (Qabs q))) 2 0
              = Qc_of_Z (JS.nearestScaled 2 (Qabs q)) / Qc_of_Z 100).
  { apply Qc_is_canon. unfold JS.decimalValue. rewrite Z2N.id by done.
    qc2q. reflexivity. }
  simpl. rewrite E. by destruct (JS.isNeg q).
Qed.


(** The rounded value is determined by [roundedTo2]. *)
Lemma roundedTo2_unique (x r r' : Qc) : roundedTo2 x r → roundedTo2 x r' → r = r'.
Proof.
  intros [[n ->] [Hl Hu]] [[n' ->] [Hl' Hu']].
  assert (n = n') as ->; [|done].
  qc2q. change (/ inject_Z 100)%Q with (1 # 100)%Q in *.
  assert (inject_Z n < inject_Z n' + 1)%Q as H1 by lra.
  assert (inject_Z n' < inject_Z n + 1)%Q as H2 by lra.
  change 1%Q with (inject_Z 1) in H1, H2.
  rewrite <- inject_Z_plus, <- Zlt_Qlt in H1, H2. lia.
Qed.

End Rounding.

(** ** The calculation engine *)

Section Calculation.

Local Open Scope Qc_scope.




(** C8. For estimated hours h ≥ 0 the equipment labor costs are h × 250 for
    the 250 series excavator, h × 200 for the 200 series excavator and
    h × 200 for the loader, and their total is h×250 + h×200 + h×200; for
    h = 8 the total is 5200 and it is shown as 5200.00. *)
Theorem equipment_labor_cost (h : Qc) :
  0 ≤ h →
  let c := LaborCalculator.costs (Some (JS.Fin h)) in
  LaborCalculator.excavator250Cost c = JS.Fin (h * Qc_of_Z 250)
  ∧ LaborCalculator.excavator200Cost c = JS.Fin (h * Qc_of_Z 200)
  ∧ LaborCalculator.loaderCost c = JS.Fin (h * Qc_of_Z 200)
  ∧ LaborCalculator.totalEquipmentCost c
    = JS.Fin (h * Qc_of_Z 250 + h * Qc_of_Z 200 + h * Qc_of_Z 200)
  ∧ LaborCalculator.totalEquipmentCost (LaborCalculator.costs (Some (JS.ofZ 8)))
    = JS.ofZ 5200
  ∧ LaborCalculator.totalEquipmentCostText (Some (JS.ofZ 8)) = "$5200.00"%string.
Proof.
  intros _. cbv zeta. repeat split. all: by_compute.
Qed.

Lemma equipment_labor_cost_witness :
  LaborCalculator.totalEquipmentCost (LaborCalculator.costs (Some (JS.Fin (Qc_of_Z 8))))
  = JS.Fin (Qc_of_Z 8 * Qc_of_Z 250 + Qc_of_Z 8 * Qc_of_Z 200 + Qc_of_Z 8 * Qc_of_Z 200).
Proof.
  apply (equipment_labor_cost (Qc_of_Z 8)). by vm_compute.
Defined.

End Calculation.

(** ** The database behind the routes *)

Section Database.

Local Open Scope Z_scope.

Lemma wf_emptyDb : wf emptyDb.
Proof. split; apply map_Forall_empty. Qed.

Lemma referenced_false id table :
  referenced id (filter (λ kv, Estimate.jobId kv.2 ≠ id) table) = false.
Proof.
  apply bool_decide_eq_false. intros (k & e & Hk & He).
  apply map_lookup_filter_Some in Hk as [_ Hne]. by apply Hne.
Qed.

Lemma wf_insertJob row db :
  (∀ id, Job.id (row id) = id) →
  wf db → wf (DbStorage.insertJob row db).2.
Proof.
  intros Hrow [Hj He]. unfold DbStorage.insertJob.
  destruct (jobs db !! jobs_id_seq db) eqn:E; simpl.
  - split; simpl.
    + intros k j Hk. destruct (Hj k j Hk). split; [done|lia].
    + done.
  - split; simpl.
    + apply map_Forall_insert_2; [split; [apply Hrow|lia]|].
      intros k j Hk. destruct (Hj k j Hk). split; [done|lia].
    + intros k e Hk. destruct (He k e Hk) as (? & ? & Hfk).
      repeat split; try done.
      destruct (decide (jobs_id_seq db = Estimate.jobId e)) as [<-|Hne].
      * by rewrite lookup_insert_eq.
      * by rewrite lookup_insert_ne.
Qed.

Lemma wf_updateJob id updateData db : wf db → wf (DbStorage.updateJob id updateData db).2.
Proof.
  intros [Hj He]. unfold DbStorage.updateJob.
  destruct (DbStorage.noJobColumns _); [done|].
  destruct (jobs db !! id) as [row|] eqn:E; [|done].
  split; simpl.
  - apply map_Forall_insert_2; [|done]. by destruct (Hj id row E).
  - intros k e Hk. destruct (He k e Hk) as (? & ? & Hfk).
    repeat split; try done.
    destruct (decide (id = Estimate.jobId e)) as [<-|Hne].
    + by rewrite lookup_insert_eq.
    + by rewrite lookup_insert_ne.
Qed.

Lemma wf_deleteJob id db : wf db → wf (DbStorage.deleteJob id db).2.
Proof.
  intros [Hj He]. unfold DbStorage.deleteJob, bind, tryCatch, ret,
    DbStorage.deleteEstimatesOfJob, DbStorage.deleteJobRow. simpl.
  rewrite referenced_false.
  destruct (jobs db !! id) as [row|] eqn:E; simpl.
  - split; simpl.
    + by apply map_Forall_delete.
    + intros k e Hk. apply map_lookup_filter_Some in Hk as [Hk Hne]. simpl in Hne.
      destruct (He k e Hk) as (? & ? & Hfk). repeat split; try done.
      by rewrite lookup_delete_ne.
  - split; simpl; [done|].
    intros k e Hk. apply map_lookup_filter_Some in Hk as [Hk Hne].
    by apply He.
Qed.

Lemma wf_insertEstimate jobId row db :
  (∀ id j, Estimate.id (row id j) = id ∧ Estimate.jobId (row id j) = j) →
  wf db → wf (DbStorage.insertEstimate jobId row db).2.
Proof.
  intros Hrow [Hj He]. unfold DbStorage.insertEstimate.
  destruct (toInteger jobId) as [j|]; [|done].
  assert (Hseq : map_Forall (λ id e, Estimate.id e = id
            ∧ id < estimates_id_seq db + 1
            ∧ is_Some (jobs db !! Estimate.jobId e)) (estimates db)).
  { intros k e Hk. destruct (He k e Hk) as (? & ? & ?). repeat split; [done|lia|done]. }
  destruct (estimates db !! estimates_id_seq db) eqn:E; [done|].
  destruct (jobs db !! j) eqn:Ej; [|done].
  split; simpl; [done|].
  apply map_Forall_insert_2; [|done].
  destruct (Hrow (estimates_id_seq db) j) as [-> ->].
  repeat split; [lia|by rewrite Ej].
Qed.

Lemma wf_updateEstimate id updateData db :
  wf db → wf (DbStorage.updateEstimate id updateData db).2.
Proof.
  intros [Hj He]. unfold DbStorage.updateEstimate.
  destruct (DbStorage.noEstimateColumns _); [done|].
  cbv beta iota zeta. simpl PartialEstimate.jobId.
  destruct (PartialEstimate.jobId updateData) as [x|]; simpl from_option.
  - destruct (toInteger x) as [j|]; [|done].
    destruct (estimates db !! id) as [row|] eqn:E; [|done].
    destruct (He id row E) as (Hid & Hlt & Hfk).
    destruct (bool_decide _ || bool_decide _) eqn:Hc; [|done].
    split; simpl; [done|].
    apply map_Forall_insert_2; [|done].
    repeat split; try done.
    apply orb_true_iff in Hc as [Hc|Hc].
    + apply bool_decide_eq_true in Hc. simpl in Hc. simpl. by rewrite Hc.
    + by apply bool_decide_eq_true in Hc.
  - destruct (estimates db !! id) as [row|] eqn:E; [|done].
    destruct (He id row E) as (Hid & Hlt & Hfk).
    destruct (bool_decide _ || bool_decide _) eqn:Hc; [|done].
    split; simpl; [done|].
    by apply map_Forall_insert_2.
Qed.

Lemma wf_deleteEstimate id db : wf db → wf (DbStorage.deleteEstimate id db).2.
Proof.
  intros [Hj He]. unfold DbStorage.deleteEstimate.
  destruct (estimates db !! id); [|done].
  split; simpl; [done|]. by apply map_Forall_delete.
Qed.

(** *** Invariants of the database along a handler *)

Lemma preserves_ret P {A} (a : A) : preserves P (ret a).
Proof. by intros db. Qed.

Lemma preserves_throw P {A} e : preserves P (throw (A:=A) e).
Proof. by intros db. Qed.

Lemma preserves_bind P {A B} (m : Async A) (k : A → Async B) :
  preserves P m → (∀ a, preserves P (k a)) → preserves P (bind m k).
Proof.
  intros Hm Hk db HP. unfold bind. specialize (Hm db HP).
  destruct (m db) as [[a|e] db']; simpl in *; [by apply Hk|done].
Qed.

Lemma preserves_try P handler message :
  preserves P handler → ∀ db, P db → P (Routes.try handler message db).2.
Proof.
  intros Hm db HP. unfold Routes.try. specialize (Hm db HP).
  by destruct (handler db) as [[a|e] db'].
Qed.

Lemma preserves_json P status payload : preserves P (Routes.json_ status payload).
Proof. apply preserves_ret. Qed.

Lemma preserves_read P {A} (f : Db → A) : preserves P (λ db, (Ok (f db), db)).
Proof. by intros db. Qed.

Create HintDb preserves.
Hint Resolve preserves_ret preserves_throw preserves_json : preserves.

Ltac route_cases req :=
  destruct req;
  unfold Routes.registerRoutes, Routes.get_jobs, Routes.get_job, Routes.post_jobs,
    Routes.put_job, Routes.delete_job, Routes.get_estimates, Routes.get_estimate,
    Routes.post_estimates, Routes.put_estimate, Routes.delete_estimate.

Lemma wf_route now req : ∀ db, wf db → wf (Routes.registerRoutes now req db).2.
Proof.
  route_cases req; apply (preserves_try wf).
  - apply preserves_bind; [apply (preserves_read _ (λ db, rows (jobs db)))|auto with preserves].
  - apply preserves_bind; [apply (preserves_read _ (λ db, jobs db !! id))|].
    intros [j|]; auto with preserves.
  - destruct (Schema.insertJobSchema body); auto with preserves.
    apply preserves_bind; [|auto with preserves].
    apply preserves_bind; [|auto with preserves].
    intros d. by apply wf_insertJob.
  - destruct (Schema.insertJobSchema_partial body); auto with preserves.
    apply preserves_bind; [intros d; apply wf_updateJob|].
    intros [j|]; auto with preserves.
  - apply preserves_bind; [intros d; apply wf_deleteJob|].
    intros []; simpl; auto with preserves.
  - apply preserves_bind; [|auto with preserves].
    destruct jobId as [j|]; [destruct (bool_decide (j = 0))|]; by intros d.
  - apply preserves_bind; [apply (preserves_read _ (λ db, estimates db !! id))|].
    intros [e|]; auto with preserves.
  - destruct (Schema.estimateValidationSchema body); auto with preserves.
    apply preserves_bind; [|auto with preserves].
    apply preserves_bind; [|auto with preserves].
    intros d. by apply wf_insertEstimate.
  - destruct (Schema.estimateValidationSchema_partial body); auto with preserves.
    apply preserves_bind; [apply (preserves_read _ (λ db, estimates db !! id))|].
    intros [cur|]; auto with preserves.
    apply preserves_bind; [intros d; apply wf_updateEstimate|].
    intros [e|]; auto with preserves.
  - apply preserves_bind; [intros d; apply wf_deleteEstimate|].
    intros []; simpl; auto with preserves.
Qed.

Lemma serve_snoc reqs now req db :
  Routes.serve (reqs ++ [(now, req)]) db
  = (Routes.registerRoutes now req (Routes.serve reqs db)).2.
Proof. unfold Routes.serve. by rewrite fold_left_app. Qed.

(** An invariant of every handler holds after every sequence of requests. *)
Lemma serve_ind (P : Db → Prop) :
  (∀ now req db, P db → P (Routes.registerRoutes now req db).2) →
  ∀ reqs db, P db → P (Routes.serve reqs db).
Proof.
  intros Hstep reqs. induction reqs as [|[now req] reqs IH] using rev_ind; [done|].
  intros db HP. rewrite serve_snoc. by apply Hstep, IH.
Qed.

Lemma wf_serve reqs : wf (Routes.serve reqs emptyDb).
Proof. apply serve_ind; [apply wf_route|apply wf_emptyDb]. Qed.

(** *** The stored cubic yards are the computed ones *)

Lemma allComputed_createEstimate now data :
  InsertEstimate.cubicYards data
  = calculateCubicYards (InsertEstimate.pipeLength data)
      (InsertEstimate.trenchWidth data) (InsertEstimate.trenchDepth data) →
  preserves allComputed (DbStorage.createEstimate now data).
Proof.
  intros Hcy. apply preserves_bind; [|auto with preserves].
  intros db Hdb. unfold DbStorage.insertEstimate.
  destruct (toInteger _) as [j|]; [|done].
  destruct (estimates db !! estimates_id_seq db); [done|].
  destruct (jobs db !! j); [|done].
  by apply map_Forall_insert_2.
Qed.

Lemma allComputed_updateEstimate id updateData db :
  allComputed db →
  (∀ cur j, estimates db !! id = Some cur →
            cubicYardsComputed (DbStorage.setEstimate updateData j cur)) →
  allComputed (DbStorage.updateEstimate id updateData db).2.
Proof.
  intros Hdb Hset. unfold DbStorage.updateEstimate.
  destruct (DbStorage.noEstimateColumns _); [done|].
  cbv beta iota zeta. simpl PartialEstimate.jobId.
  set (j := from_option toInteger None (PartialEstimate.jobId updateData)).
  assert (Hgo : allComputed
    (match estimates db !! id with
     | Some row =>
         let row' := DbStorage.setEstimate updateData j row in
         if bool_decide (Estimate.jobId row' = Estimate.jobId row)
            || bool_decide (is_Some (jobs db !! Estimate.jobId row'))
         then (Ok (Some row'),
               {| jobs := jobs db; estimates := <[id := row']> (estimates db);
                  jobs_id_seq := jobs_id_seq db;
                  estimates_id_seq := estimates_id_seq db |})
         else (Throw "insert or update on table violates foreign key constraint", db)
     | None => (Ok None, db)
     end).2).
  { destruct (estimates db !! id) as [row|] eqn:E; [|done]. cbv zeta.
    destruct (_ || _); [|done].
    apply map_Forall_insert_2; [|done]. by apply Hset. }
  destruct updateData as [[x|] ? ? ? ? ? ? ? ? ? ?]; [|exact Hgo].
  subst j. simpl in *. by destruct (toInteger x).
Qed.

Lemma allComputed_route now req : ∀ db,
  allComputed db → allComputed (Routes.registerRoutes now req db).2.
Proof.
  route_cases req; try apply (preserves_try allComputed).
  - apply preserves_bind; [apply (preserves_read _ (λ db, rows (jobs db)))|auto with preserves].
  - apply preserves_bind; [apply (preserves_read _ (λ db, jobs db !! id))|].
    intros [j|]; auto with preserves.
  - destruct (Schema.insertJobSchema body); auto with preserves.
    apply preserves_bind; [|auto with preserves].
    apply preserves_bind; [|auto with preserves].
    intros db Hdb. unfold DbStorage.insertJob. by destruct (jobs db !! _).
  - destruct (Schema.insertJobSchema_partial body); auto with preserves.
    apply preserves_bind; [|intros [j|]; auto with preserves].
    intros db Hdb. unfold DbStorage.updateJob.
    destruct (DbStorage.noJobColumns _); [done|]. by destruct (jobs db !! _).
  - apply preserves_bind; [|intros []; simpl; auto with preserves].
    intros db Hdb. unfold DbStorage.deleteJob, bind, tryCatch, ret,
      DbStorage.deleteEstimatesOfJob, DbStorage.deleteJobRow. simpl.
    rewrite referenced_false.
    assert (allComputed
      {| jobs := jobs db;
         estimates := filter (λ kv, Estimate.jobId kv.2 ≠ id) (estimates db);
         jobs_id_seq := jobs_id_seq db; estimates_id_seq := estimates_id_seq db |}).
    { intros k e Hk. apply map_lookup_filter_Some in Hk as [Hk _]. by apply (Hdb k). }
    by destruct (jobs db !! id).
  - apply preserves_bind; [|auto with preserves].
    destruct jobId as [j|]; [destruct (bool_decide (j = 0))|]; by intros d.
  - apply preserves_bind; [apply (preserves_read _ (λ db, estimates db !! id))|].
    intros [e|]; auto with preserves.
  - destruct (Schema.estimateValidationSchema body); auto with preserves.
    apply preserves_bind; [|auto with preserves].
    by apply allComputed_createEstimate.
  - intros db Hdb. unfold Routes.try, bind, DbStorage.getEstimate.
    destruct (Schema.estimateValidationSchema_partial body) as [data| |]; [|done..].
    destruct (estimates db !! id) as [cur|] eqn:Ecur; [|done].
    match goal with
    | |- context [DbStorage.updateEstimate id ?u db] =>
        pose proof (allComputed_updateEstimate id u db Hdb) as Hupd
    end.
    destruct (DbStorage.updateEstimate _ _ db) as [[[e|]|?] db'] eqn:E;
      simpl in *; apply Hupd; clear Hupd E.
    all: intros cur' j Hcur'; assert (cur' = cur) as -> by congruence.
    all: pose proof (Hdb id cur Ecur) as Hcy; unfold cubicYardsComputed in *; simpl.
    all: destruct (PartialEstimate.pipeLength data), (PartialEstimate.trenchWidth data),
           (PartialEstimate.trenchDepth data); simpl; done.
  - apply preserves_bind; [|intros []; simpl; auto with preserves].
    intros db Hdb. unfold DbStorage.deleteEstimate.
    destruct (estimates db !! id); [|done]. by apply map_Forall_delete.
Qed.

(** *** What a handler answers *)




Lemma zod_ap_inv {A B} (rf : Zod.ParseResult (A → B)) ra b :
  rf <*z> ra = Zod.Valid b → ∃ f a, rf = Zod.Valid f ∧ ra = Zod.Valid a ∧ b = f a.
Proof. destruct rf, ra; simpl; intros; simplify_eq; eauto. Qed.

Lemma zod_map_inv {A B} (f : A → B) r b :
  f <$z> r = Zod.Valid b → ∃ a, r = Zod.Valid a ∧ b = f a.
Proof. destruct r; simpl; intros; simplify_eq; eauto. Qed.





Lemma updateEstimate_ok id updateData cur jobId db :
  is_Some (PartialEstimate.cubicYards updateData) →
  estimates db !! id = Some cur →
  jobIdAccepted db cur (PartialEstimate.jobId updateData) jobId →
  let e := DbStorage.setEstimate updateData jobId cur in
  DbStorage.updateEstimate id updateData db
  = (Ok (Some e), withEstimate id e (estimates_id_seq db) db).
Proof.
  intros [cy Hcy] Hcur Hj e.
  destruct updateData as [x d pl tw td cy' mw iuc eh ca n]. simpl in *. subst cy'.
  unfold DbStorage.updateEstimate. cbv beta iota zeta.
  cbn [PartialEstimate.jobId PartialEstimate.cubicYards PartialEstimate.description
       PartialEstimate.pipeLength PartialEstimate.trenchWidth PartialEstimate.trenchDepth
       PartialEstimate.materialWeight PartialEstimate.importUnitCost
       PartialEstimate.estimatedHours PartialEstimate.notes].
  replace (DbStorage.noEstimateColumns _) with false by (by destruct x, d, pl, tw, td).
  rewrite Hcur.
  assert (Hfk : bool_decide (Estimate.jobId e = Estimate.jobId cur)
                || bool_decide (is_Some (jobs db !! Estimate.jobId e)) = true).
  { apply orb_true_iff. subst e. simpl. destruct x as [x|]; simpl in Hj.
    - destruct Hj as (j & _ & -> & [->|Hfk]); simpl.
      + left. by apply bool_decide_eq_true.
      + right. by apply bool_decide_eq_true.
    - subst jobId. left. by apply bool_decide_eq_true. }
  destruct x as [x|]; simpl in Hj.
  - destruct Hj as (j & Hx & -> & _). simpl from_option. rewrite Hx.
    change (DbStorage.setEstimate _ (Some j) cur) with e. by rewrite Hfk.
  - subst jobId. simpl from_option.
    change (DbStorage.setEstimate _ None cur) with e. by rewrite Hfk.
Qed.

Lemma put_estimate_ok id body data cur jobId db :
  Schema.estimateValidationSchema_partial body = Zod.Valid data →
  estimates db !! id = Some cur →
  jobIdAccepted db cur (PartialEstimate.jobId data) jobId →
  let e := updatedEstimate data jobId cur in
  Routes.put_estimate id body db
  = ({| Routes.status := 200; Routes.payload := Routes.AnEstimate e |},
     withEstimate id e (estimates_id_seq db) db).
Proof.
  intros Hdata Hcur Hj e.
  unfold Routes.put_estimate, Routes.try, Routes.json_, bind, ret, DbStorage.getEstimate.
  rewrite Hdata, Hcur. cbv beta iota zeta.
  erewrite updateEstimate_ok; [|by eexists|done|exact Hj].
  replace (DbStorage.setEstimate _ jobId cur) with e; [done|].
  subst e. unfold DbStorage.setEstimate, updatedEstimate, dimensionsIn. simpl.
  by destruct (PartialEstimate.materialWeight data).
Qed.

Lemma updateEstimate_inv id updateData e db db' :
  DbStorage.updateEstimate id updateData db = (Ok (Some e), db') →
  ∃ cur jobId,
    estimates db !! id = Some cur
    ∧ jobIdAccepted db cur (PartialEstimate.jobId updateData) jobId
    ∧ e = DbStorage.setEstimate updateData jobId cur
    ∧ db' = withEstimate id e (estimates_id_seq db) db.
Proof.
  destruct updateData as [x d pl tw td cy mw iuc eh ca n].
  unfold DbStorage.updateEstimate. cbv beta iota zeta.
  cbn [PartialEstimate.jobId PartialEstimate.cubicYards PartialEstimate.description
       PartialEstimate.pipeLength PartialEstimate.trenchWidth PartialEstimate.trenchDepth
       PartialEstimate.materialWeight PartialEstimate.importUnitCost
       PartialEstimate.estimatedHours PartialEstimate.notes].
  destruct (DbStorage.noEstimateColumns _); [done|].
  destruct x as [x|]; simpl from_option.
  - destruct (toInteger x) as [j|] eqn:Hx; [|done].
    destruct (estimates db !! id) as [cur|] eqn:Hcur; [|done].
    destruct (bool_decide _ || bool_decide _) eqn:Hfk; [|done].
    intros H. injection H as <- <-. exists cur, (Some j).
    split_and!; try done. exists j. split_and!; try done.
    apply orb_true_iff in Hfk as [Hfk|Hfk]; apply bool_decide_eq_true in Hfk; auto.
  - destruct (estimates db !! id) as [cur|] eqn:Hcur; [|done].
    destruct (bool_decide _ || bool_decide _) eqn:Hfk; [|done].
    intros H. injection H as <- <-. by exists cur, None.
Qed.

Lemma put_estimate_inv id body e db db' :
  Routes.put_estimate id body db
  = ({| Routes.status := 200; Routes.payload := Routes.AnEstimate e |}, db') →
  ∃ data cur jobId,
    Schema.estimateValidationSchema_partial body = Zod.Valid data
    ∧ estimates db !! id = Some cur
    ∧ jobIdAccepted db cur (PartialEstimate.jobId data) jobId
    ∧ e = updatedEstimate data jobId cur
    ∧ db' = withEstimate id e (estimates_id_seq db) db.
Proof.
  intros Hput.
  destruct (Schema.estimateValidationSchema_partial body) as [data| |] eqn:Hdata.
  2,3: unfold Routes.put_estimate, Routes.try in Hput; by rewrite Hdata in Hput.
  destruct (estimates db !! id) as [cur|] eqn:Hcur.
  2: { unfold Routes.put_estimate, Routes.try, bind, DbStorage.getEstimate in Hput.
       by rewrite Hdata, Hcur in Hput. }
  revert Hput.
  unfold Routes.put_estimate, Routes.try, Routes.json_, bind, ret, DbStorage.getEstimate.
  rewrite Hdata, Hcur. cbv beta iota zeta.
  match goal with
  | |- context [DbStorage.updateEstimate id ?u db] =>
      pose proof (updateEstimate_inv id u) as Hinv;
      destruct (DbStorage.updateEstimate id u db) as [[[e'|]|?] db''] eqn:E; [|done..]
  end.
  intros H. injection H as -> ->.
  destruct (Hinv _ _ _ E) as (cur' & jobId & Hcur' & Hj & -> & ->).
  assert (cur' = cur) as -> by congruence.
  exists data, cur, jobId. by split_and!.
Qed.






(** *** What the schemas accept *)

Lemma errorOf_map {A B} (f : A → B) r : Routes.errorOf (f <$z> r) = Routes.errorOf r.
Proof. by destruct r. Qed.

Lemma errorOf_ap_l {A B} (rf : Zod.ParseResult (A → B)) ra i :
  i ∈ Routes.errorOf rf → i ∈ Routes.errorOf (rf <*z> ra).
Proof. destruct rf, ra; simpl; set_solver. Qed.

Lemma errorOf_ap_r {A B} (rf : Zod.ParseResult (A → B)) ra i :
  i ∈ Routes.errorOf ra → i ∈ Routes.errorOf (rf <*z> ra).
Proof. destruct rf, ra; simpl; set_solver. Qed.

(** Every key of a valid body is valid, and the data are what the keys give. *)
Lemma estimateValidationSchema_inv o data :
  Schema.estimateValidationSchema (JObj o) = Zod.Valid data →
  Zod.key o "jobId" Zod.number_ = Zod.Valid (InsertEstimate.jobId data)
  ∧ Zod.key o "description" Schema.textNull = Zod.Valid (InsertEstimate.description data)
  ∧ Zod.key o "pipeLength" Schema.pipeLength_ = Zod.Valid (InsertEstimate.pipeLength data)
  ∧ Zod.key o "trenchWidth" Schema.trenchWidth_ = Zod.Valid (InsertEstimate.trenchWidth data)
  ∧ Zod.key o "trenchDepth" Schema.trenchDepth_ = Zod.Valid (InsertEstimate.trenchDepth data)
  ∧ Zod.key o "cubicYards" Zod.number_ = Zod.Valid (InsertEstimate.cubicYards data)
  ∧ Zod.key o "createdAt" (Zod.optional (Zod.nullable Zod.date_))
    = Zod.Valid (InsertEstimate.createdAt data)
  ∧ Zod.key o "notes" Schema.textNull = Zod.Valid (InsertEstimate.notes data).
Proof.
  unfold Schema.estimateValidationSchema, Zod.object. intros H.
  repeat (apply zod_ap_inv in H as (? & ? & H & ? & ->)).
  apply zod_map_inv in H as (? & ? & ->). simpl. by split_and!.
Qed.

Lemma estimateValidationSchema_partial_inv o data :
  Schema.estimateValidationSchema_partial (JObj o) = Zod.Valid data →
  Zod.key o "jobId" (Zod.optional Zod.number_) = Zod.Valid (PartialEstimate.jobId data)
  ∧ Zod.key o "pipeLength" (Zod.optional Schema.pipeLength_)
    = Zod.Valid (PartialEstimate.pipeLength data)
  ∧ Zod.key o "trenchWidth" (Zod.optional Schema.trenchWidth_)
    = Zod.Valid (PartialEstimate.trenchWidth data)
  ∧ Zod.key o "trenchDepth" (Zod.optional Schema.trenchDepth_)
    = Zod.Valid (PartialEstimate.trenchDepth data)
  ∧ Zod.key o "cubicYards" (Zod.optional Zod.number_)
    = Zod.Valid (PartialEstimate.cubicYards data).
Proof.
  unfold Schema.estimateValidationSchema_partial, Zod.object. intros H.
  repeat (apply zod_ap_inv in H as (? & ? & H & ? & ->)).
  apply zod_map_inv in H as (? & ? & ->). simpl. by split_and!.
Qed.


Lemma optional_number_present o k (x : JS.number) v :
  o !! k = Some (JNum x) → Zod.key o k (Zod.optional Zod.number_) = Zod.Valid v →
  v = Some x.
Proof.
  unfold Zod.key, Zod.optional, Zod.number_. intros ->.
  destruct x; simpl; congruence.
Qed.

Lemma post_estimates_invalid now body db :
  Routes.errorOf (Schema.estimateValidationSchema body) ≠ [] →
  Routes.post_estimates now body db
  = ({| Routes.status := 400;
        Routes.payload := Routes.Invalid "Invalid estimate data"
                            (Routes.errorOf (Schema.estimateValidationSchema body)) |},
     db).
Proof.
  unfold Routes.post_estimates, Routes.try.
  by destruct (Schema.estimateValidationSchema body).
Qed.

(** C4. A POST /api/estimates whose pipeLength is 0 or negative is answered
    400 with the errors of the fields, among them the one of pipeLength, and
    the database is left as it was: no estimate is created. *)
Theorem post_estimates_rejects_pipeLength now o (q : Qc) db :
  o !! "pipeLength"%string = Some (JNum (JS.Fin q)) →
  (q ≤ 0)%Qc →
  ∃ errors,
    Routes.post_estimates now (JObj o) db
    = ({| Routes.status := 400;
          Routes.payload := Routes.Invalid "Invalid estimate data" errors |}, db)
    ∧ {| Zod.path := ["pipeLength"%string];
         Zod.message := "Pipe length must be greater than 0" |} ∈ errors.
Proof.
  intros Ho Hq.
  assert (Hin : {| Zod.path := ["pipeLength"%string];
                   Zod.message := "Pipe length must be greater than 0" |}
                ∈ Routes.errorOf (Schema.estimateValidationSchema (JObj o))).
  { unfold Schema.estimateValidationSchema, Zod.object.
    do 8 apply errorOf_ap_l. apply errorOf_ap_r.
    unfold Zod.key, Schema.pipeLength_, Zod.positive, Zod.refine, Zod.number_.
    rewrite Ho. simpl.
    replace (bool_decide (0 < q)%Qc) with false; [simpl; set_solver|].
    symmetry. apply bool_decide_eq_false. by apply Qcle_not_lt. }
  eexists. split; [|exact Hin].
  apply post_estimates_invalid. intros E. rewrite E in Hin. set_solver.
Qed.

Lemma post_estimates_rejects_pipeLength_witness :
  ∃ errors,
    Routes.post_estimates 2
      (JObj (<["pipeLength"%string := Demo.jnum 0]> Demo.estimateFields)) Demo.db
    = ({| Routes.status := 400;
          Routes.payload := Routes.Invalid "Invalid estimate data" errors |}, Demo.db)
    ∧ {| Zod.path := ["pipeLength"%string];
         Zod.message := "Pipe length must be greater than 0" |} ∈ errors.
Proof.
  apply (post_estimates_rejects_pipeLength 2 _ (Qc_of_Z 0) Demo.db).
  - reflexivity.
  - by vm_compute.
Defined.

Lemma updateEstimate_cases id updateData db :
  (DbStorage.updateEstimate id updateData db).2 = db
  ∨ ∃ e, (DbStorage.updateEstimate id updateData db).1 = Ok (Some e).
Proof.
  unfold DbStorage.updateEstimate.
  destruct (DbStorage.noEstimateColumns _); [by left|].
  cbv beta iota zeta.
  destruct updateData as [[x|] ? ? ? ? ? ? ? ? ? ?]; simpl.
  - destruct (toInteger x); [|by left].
    destruct (estimates db !! id); [|by left].
    destruct (_ || _); [right; by eexists|by left].
  - destruct (estimates db !! id); [|by left].
    destruct (_ || _); [right; by eexists|by left].
Qed.

(** A PUT either leaves the database as it was, or answers 200. *)
Lemma put_estimate_cases id body db :
  (Routes.put_estimate id body db).2 = db
  ∨ ∃ e db', Routes.put_estimate id body db
             = ({| Routes.status := 200; Routes.payload := Routes.AnEstimate e |}, db').
Proof.
  unfold Routes.put_estimate, Routes.try, Routes.json_, bind, ret, DbStorage.getEstimate.
  destruct (Schema.estimateValidationSchema_partial body) as [data| |]; [|by left..].
  destruct (estimates db !! id) as [cur|]; [|by left].
  match goal with
  | |- context [DbStorage.updateEstimate id ?u db] =>
      destruct (updateEstimate_cases id u db) as [Hsame|[e He]];
      destruct (DbStorage.updateEstimate id u db) as [[[e'|]|?] db'']
  end; simpl in *; simplify_eq; try by left.
  all: right; by eexists _, _.
Qed.




(** *** Numbers sent as strings *)






(** *** Deleting a job *)

Lemma elem_of_rows {A} (table : gmap Z A) (x : A) :
  x ∈ rows table ↔ ∃ id, table !! id = Some x.
Proof.
  unfold rows. rewrite list_elem_of_fmap. split.
  - intros ([k y] & -> & Hin). exists k. by apply elem_of_map_to_list.
  - intros (k & Hk). exists (k, x). split; [done|]. by apply elem_of_map_to_list.
Qed.

Lemma estimatesOf_deleted id (table : gmap Z Estimate.t) :
  estimatesOf id (filter (λ kv, Estimate.jobId kv.2 ≠ id) table) = ∅.
Proof.
  apply map_empty. intros k. apply eq_None_not_Some. intros [e He].
  apply map_lookup_filter_Some in He as [He Heq].
  apply map_lookup_filter_Some in He as [_ Hne]. by apply Hne.
Qed.

Lemma deleteJob_run id db :
  DbStorage.deleteJob id db = (Ok (bool_decide (is_Some (jobs db !! id))), withoutJob id db).
Proof.
  unfold DbStorage.deleteJob, bind, tryCatch, ret,
    DbStorage.deleteEstimatesOfJob, DbStorage.deleteJobRow. simpl.
  rewrite referenced_false.
  destruct (jobs db !! id) as [row|] eqn:E; simpl.
  - f_equal.
  - f_equal. unfold withoutJob. f_equal. by rewrite delete_id.
Qed.

(** C5. For a job with any number N ≥ 0 of estimates, deleteJob deletes the
    estimates of the job and then the job, which the foreign key then allows:
    it does not throw and returns true exactly when the job existed.
    Afterwards no estimate has that jobId, and the job is not among the jobs
    that getJobs lists. *)
Theorem deleteJob_cascade reqs id :
  let db := Routes.serve reqs emptyDb in
  ∃ db',
    DbStorage.deleteJob id db = (Ok (bool_decide (is_Some (jobs db !! id))), db')
    ∧ (let db1 := (DbStorage.deleteEstimatesOfJob id db).2 in
       estimatesOf id (estimates db1) = ∅
       ∧ jobs db1 = jobs db
       ∧ DbStorage.deleteJobRow id db1 = (Ok (option_list (jobs db !! id)), db'))
    ∧ DbStorage.getEstimatesByJobId id db' = (Ok [], db')
    ∧ Forall (λ e, Estimate.jobId e ≠ id) (rows (estimates db'))
    ∧ DbStorage.getJob id db' = (Ok None, db')
    ∧ Forall (λ j, Job.id j ≠ id) (rows (jobs db'))
    ∧ wf db'.
Proof.
  intros db. exists (withoutJob id db).
  pose proof (wf_serve reqs) as Hwf. fold db in Hwf.
  split_and!.
  - apply deleteJob_run.
  - simpl. split_and!; [apply estimatesOf_deleted|done|].
    unfold DbStorage.deleteJobRow. simpl. rewrite referenced_false.
    destruct (jobs db !! id) eqn:E; simpl; [done|].
    unfold withoutJob. by rewrite delete_id.
  - unfold DbStorage.getEstimatesByJobId. simpl.
    by rewrite estimatesOf_deleted.
  - apply Forall_forall. intros e [k Hk]%elem_of_rows. simpl in Hk.
    by apply map_lookup_filter_Some in Hk as [_ Hne].
  - unfold DbStorage.getJob. simpl. by rewrite lookup_delete_eq.
  - apply Forall_forall. intros j [k Hk]%elem_of_rows. simpl in Hk.
    apply lookup_delete_Some in Hk as [Hne Hk].
    destruct Hwf as [Hj _]. destruct (Hj k j Hk) as [-> _]. done.
  - pose proof (wf_deleteJob id db Hwf) as H. by rewrite deleteJob_run in H.
Qed.

(** *** Creating and fetching *)





(** *** The status of a job *)










End Database.

(** * Further properties of the server and of the calculators *)

Section Coverage.

Local Open Scope Z_scope.

Ltac each_route req :=
  destruct req;
  unfold Routes.registerRoutes, Routes.get_jobs, Routes.get_job, Routes.post_jobs,
    Routes.put_job, Routes.delete_job, Routes.get_estimates, Routes.get_estimate,
    Routes.post_estimates, Routes.put_estimate, Routes.delete_estimate.

(** *** How a request changes the tables *)

Lemma post_jobs_cases body db :
  (jobs (Routes.post_jobs body db).2 = jobs db
   ∧ estimates (Routes.post_jobs body db).2 = estimates db
   ∧ Routes.status (Routes.post_jobs body db).1 ≠ 201)
  ∨ ∃ data,
      Schema.insertJobSchema body = Zod.Valid data
      ∧ jobs db !! jobs_id_seq db = None
      ∧ Routes.post_jobs body db
        = ({| Routes.status := 201;
              Routes.payload := Routes.AJob (createdJob (jobs_id_seq db) data) |},
           withJob (jobs_id_seq db) (createdJob (jobs_id_seq db) data)
             (jobs_id_seq db + 1) db).
Proof.
  unfold Routes.post_jobs, Routes.try, Routes.json_, bind, ret,
    DbStorage.createJob, bind, ret, DbStorage.insertJob.
  destruct (Schema.insertJobSchema body) as [data| |]; [|by left..].
  destruct (jobs db !! jobs_id_seq db) eqn:E; [by left|].
  right. by exists data.
Qed.

Lemma post_estimates_cases now body db :
  (jobs (Routes.post_estimates now body db).2 = jobs db
   ∧ estimates (Routes.post_estimates now body db).2 = estimates db
   ∧ Routes.status (Routes.post_estimates now body db).1 ≠ 201)
  ∨ ∃ data j,
      Schema.estimateValidationSchema body = Zod.Valid data
      ∧ toInteger (InsertEstimate.jobId data) = Some j
      ∧ is_Some (jobs db !! j)
      ∧ estimates db !! estimates_id_seq db = None
      ∧ Routes.post_estimates now body db
        = ({| Routes.status := 201;
              Routes.payload :=
                Routes.AnEstimate (createdEstimate now (estimates_id_seq db) j data) |},
           withEstimate (estimates_id_seq db)
             (createdEstimate now (estimates_id_seq db) j data)
             (estimates_id_seq db + 1) db).
Proof.
  unfold Routes.post_estimates, Routes.try, Routes.json_, bind, ret,
    DbStorage.createEstimate, bind, ret, DbStorage.insertEstimate.
  destruct (Schema.estimateValidationSchema body) as [data| |]; [|by left..].
  cbn [InsertEstimate.jobId].
  destruct (toInteger (InsertEstimate.jobId data)) as [j|] eqn:Hj; [|by left].
  destruct (estimates db !! estimates_id_seq db) eqn:E; [by left|].
  destruct (jobs db !! j) eqn:Ej; [|by left].
  right. exists data, j. by split_and!.
Qed.

Lemma put_job_cases id body db :
  ((Routes.put_job id body db).2 = db
   ∧ Routes.status (Routes.put_job id body db).1 ≠ 200)
  ∨ ∃ data cur,
      Schema.insertJobSchema_partial body = Zod.Valid data
      ∧ DbStorage.noJobColumns data = false
      ∧ jobs db !! id = Some cur
      ∧ Routes.put_job id body db
        = ({| Routes.status := 200;
              Routes.payload := Routes.AJob (DbStorage.setJob data cur) |},
           withJob id (DbStorage.setJob data cur) (jobs_id_seq db) db).
Proof.
  unfold Routes.put_job, Routes.try, Routes.json_, bind, ret, DbStorage.updateJob.
  destruct (Schema.insertJobSchema_partial body) as [data| |] eqn:Hdata; [|by left..].
  destruct data as [n l c sd st nt]. cbv beta iota zeta.
  cbn [PartialJob.name PartialJob.location PartialJob.client PartialJob.startDate
       PartialJob.status PartialJob.notes].
  destruct (DbStorage.noJobColumns _) eqn:Hno; [by left|].
  destruct (jobs db !! id) as [cur|] eqn:Hcur; [|by left].
  right. eexists _, cur. by split_and!.
Qed.

Lemma delete_job_run id db :
  Routes.delete_job id db
  = (if bool_decide (is_Some (jobs db !! id))
     then {| Routes.status := 204; Routes.payload := Routes.End |}
     else {| Routes.status := 404; Routes.payload := Routes.Message "Job not found" |},
     withoutJob id db).
Proof.
  unfold Routes.delete_job, Routes.try, bind. rewrite deleteJob_run.
  by destruct (bool_decide _).
Qed.

Lemma delete_estimate_run id db :
  Routes.delete_estimate id db
  = match estimates db !! id with
    | Some _ =>
        ({| Routes.status := 204; Routes.payload := Routes.End |},
         {| jobs := jobs db; estimates := delete id (estimates db);
            jobs_id_seq := jobs_id_seq db; estimates_id_seq := estimates_id_seq db |})
    | None =>
        ({| Routes.status := 404; Routes.payload := Routes.Message "Estimate not found" |},
         db)
    end.
Proof.
  unfold Routes.delete_estimate, Routes.try, bind, DbStorage.deleteEstimate.
  by destruct (estimates db !! id).
Qed.

Lemma get_unchanged now req db :
  isGet req = true → (Routes.registerRoutes now req db).2 = db.
Proof.
  destruct req; try done; intros _; simpl.
  - unfold Routes.get_job, Routes.try, bind, DbStorage.getJob. by destruct (jobs db !! id).
  - unfold Routes.get_estimates, Routes.try, bind.
    destruct jobId as [j|]; [destruct (bool_decide (j = 0))|]; done.
  - unfold Routes.get_estimate, Routes.try, bind, DbStorage.getEstimate.
    by destruct (estimates db !! id).
Qed.

(** A row of estimates after a request was there before, or was created by
    the request, or is the update of the row that was there. *)
Lemma estimates_step now req db k e' :
  estimates (Routes.registerRoutes now req db).2 !! k = Some e' →
  estimates db !! k = Some e'
  ∨ (∃ body data j,
       req = Routes.POST_estimates body
       ∧ Schema.estimateValidationSchema body = Zod.Valid data
       ∧ estimates db !! k = None
       ∧ k = estimates_id_seq db
       ∧ e' = createdEstimate now k j data)
  ∨ (∃ body data cur jobId,
       req = Routes.PUT_estimate k body
       ∧ Schema.estimateValidationSchema_partial body = Zod.Valid data
       ∧ estimates db !! k = Some cur
       ∧ e' = updatedEstimate data jobId cur).
Proof.
  destruct req; try (rewrite get_unchanged by done; by left); simpl.
  - destruct (post_jobs_cases body db) as [(_ & -> & _)|(data & _ & _ & ->)]; by left.
  - destruct (put_job_cases id body db) as [[-> _]|(data & cur & _ & _ & _ & ->)]; by left.
  - rewrite delete_job_run. simpl. intros [H _]%map_lookup_filter_Some. by left.
  - destruct (post_estimates_cases now body db)
      as [(_ & -> & _)|(data & j & Hdata & _ & _ & Hnone & ->)]; [by left|].
    simpl. destruct (decide (k = estimates_id_seq db)) as [->|Hne].
    + rewrite lookup_insert_eq. intros [= <-]. right. left.
      by exists body, data, j.
    + rewrite lookup_insert_ne by done. by left.
  - destruct (put_estimate_cases id body db) as [->|(e & db' & Hput)]; [by left|].
    rewrite Hput.
    destruct (put_estimate_inv _ _ _ _ _ Hput)
      as (data & cur & jobId & Hdata & Hcur & _ & -> & ->).
    simpl. destruct (decide (k = id)) as [->|Hne].
    + rewrite lookup_insert_eq. intros [= <-]. right. right.
      by exists body, data, cur, jobId.
    + rewrite lookup_insert_ne by done. by left.
  - rewrite delete_estimate_run. destruct (estimates db !! id) eqn:E; [|by left].
    simpl. intros [_ H]%lookup_delete_Some. by left.
Qed.

(** A row of jobs after a request was there before, or was created by the
    request, or is the update of the row that was there. *)
Lemma jobs_step now req db k j' :
  jobs (Routes.registerRoutes now req db).2 !! k = Some j' →
  jobs db !! k = Some j'
  ∨ (∃ body data,
       req = Routes.POST_jobs body
       ∧ Schema.insertJobSchema body = Zod.Valid data
       ∧ jobs db !! k = None
       ∧ k = jobs_id_seq db
       ∧ j' = createdJob k data)
  ∨ (∃ body data cur,
       req = Routes.PUT_job k body
       ∧ Schema.insertJobSchema_partial body = Zod.Valid data
       ∧ jobs db !! k = Some cur
       ∧ j' = DbStorage.setJob data cur).
Proof.
  destruct req; try (rewrite get_unchanged by done; by left); simpl.
  - destruct (post_jobs_cases body db) as [(-> & _ & _)|(data & Hdata & Hnone & ->)];
      [by left|].
    simpl. destruct (decide (k = jobs_id_seq db)) as [->|Hne].
    + rewrite lookup_insert_eq. intros [= <-]. right. left. by exists body, data.
    + rewrite lookup_insert_ne by done. by left.
  - destruct (put_job_cases id body db) as [[-> _]|(data & cur & Hdata & _ & Hcur & ->)];
      [by left|].
    simpl. destruct (decide (k = id)) as [->|Hne].
    + rewrite lookup_insert_eq. intros [= <-]. right. right. by exists body, data, cur.
    + rewrite lookup_insert_ne by done. by left.
  - rewrite delete_job_run. simpl. intros [_ H]%lookup_delete_Some. by left.
  - destruct (post_estimates_cases now body db)
      as [(-> & _ & _)|(data & j & _ & _ & _ & _ & ->)]; by left.
  - destruct (put_estimate_cases id body db) as [->|(e & db' & Hput)]; [by left|].
    rewrite Hput.
    destruct (put_estimate_inv _ _ _ _ _ Hput) as (? & ? & ? & _ & _ & _ & _ & ->).
    by left.
  - rewrite delete_estimate_run. destruct (estimates db !! id); by left.
Qed.

(** The sequences never go back, and a request takes at most one value. *)
Lemma seq_step now req db :
  let db' := (Routes.registerRoutes now req db).2 in
  jobs_id_seq db ≤ jobs_id_seq db' ≤ jobs_id_seq db + 1
  ∧ estimates_id_seq db ≤ estimates_id_seq db' ≤ estimates_id_seq db + 1.
Proof.
  cbv zeta. destruct req; try (rewrite get_unchanged by done; lia); simpl.
  - unfold Routes.post_jobs, Routes.try, Routes.json_, bind, ret,
      DbStorage.createJob, bind, ret, DbStorage.insertJob.
    destruct (Schema.insertJobSchema body); [|simpl; lia..].
    destruct (jobs db !! jobs_id_seq db); simpl; lia.
  - destruct (put_job_cases id body db) as [[-> _]|(data & cur & _ & _ & _ & ->)];
      simpl; lia.
  - rewrite delete_job_run. simpl. lia.
  - unfold Routes.post_estimates, Routes.try, Routes.json_, bind, ret,
      DbStorage.createEstimate, bind, ret, DbStorage.insertEstimate.
    destruct (Schema.estimateValidationSchema body); [|simpl; lia..].
    cbn [InsertEstimate.jobId].
    destruct (toInteger _) as [j|]; [|simpl; lia].
    destruct (estimates db !! estimates_id_seq db), (jobs db !! j); simpl; lia.
  - destruct (put_estimate_cases id body db) as [->|(e & db' & Hput)]; [lia|].
    rewrite Hput.
    destruct (put_estimate_inv _ _ _ _ _ Hput) as (? & ? & ? & _ & _ & _ & _ & ->).
    simpl. lia.
  - rewrite delete_estimate_run. destruct (estimates db !! id); simpl; lia.
Qed.

Lemma seq_serve reqs db :
  jobs_id_seq db ≤ jobs_id_seq (Routes.serve reqs db)
  ∧ estimates_id_seq db ≤ estimates_id_seq (Routes.serve reqs db).
Proof.
  induction reqs as [|[now req] reqs IH] using rev_ind; [simpl; lia|].
  rewrite serve_snoc. pose proof (seq_step now req (Routes.serve reqs db)). simpl in *. lia.
Qed.

(** *** Estimates refer to jobs, under ids counted from 1 *)

Lemma keysFrom1_route now req db :
  keysFrom1 db → keysFrom1 (Routes.registerRoutes now req db).2.
Proof.
  intros (Hj & He & Hjs & Hes). pose proof (seq_step now req db) as Hseq. simpl in Hseq.
  split_and!; try lia.
  - intros k j' Hk. destruct (jobs_step _ _ _ _ _ Hk)
      as [H|[(? & ? & _ & _ & _ & -> & _)|(? & ? & ? & _ & _ & H & _)]];
      [by apply (Hjs k j')|lia|by apply (Hjs k _ H)].
  - intros k e' Hk. destruct (estimates_step _ _ _ _ _ Hk)
      as [H|[(? & ? & ? & _ & _ & _ & -> & _)|(? & ? & ? & ? & _ & _ & H & _)]];
      [by apply (Hes k e')|lia|by apply (Hes k _ H)].
Qed.

Lemma keysFrom1_serve reqs : keysFrom1 (Routes.serve reqs emptyDb).
Proof.
  apply serve_ind; [apply keysFrom1_route|].
  split_and!; try done; apply map_Forall_empty.
Qed.

(** X1. After any sequence of requests every stored estimate sits under its
    own id, ids are counted from 1 and are below the next value of the
    sequence, and every estimate refers to a job that is stored: there is no
    orphan estimate. *)
Theorem no_orphan_estimates reqs id e :
  let db := Routes.serve reqs emptyDb in
  estimates db !! id = Some e →
  Estimate.id e = id
  ∧ 1 ≤ id < estimates_id_seq db
  ∧ ∃ j, jobs db !! Estimate.jobId e = Some j
         ∧ Job.id j = Estimate.jobId e
         ∧ 1 ≤ Job.id j < jobs_id_seq db.
Proof.
  intros db He.
  destruct (wf_serve reqs) as [Hjobs Hests]. fold db in Hjobs, Hests.
  destruct (keysFrom1_serve reqs) as (_ & _ & Hj1 & He1). fold db in Hj1, He1.
  destruct (Hests id e He) as (Hid & Hlt & [j Hj]).
  destruct (Hjobs _ j Hj) as [Hjid Hjlt].
  pose proof (He1 id e He). pose proof (Hj1 _ j Hj). simpl in *.
  split_and!; try done. exists j. split_and!; try done; lia.
Qed.

Lemma no_orphan_estimates_witness :
  Estimate.id Demo.row = 1
  ∧ ∃ j, jobs Demo.db !! Estimate.jobId Demo.row = Some j ∧ Job.id j = 1.
Proof.
  destruct (no_orphan_estimates Demo.requests 1 Demo.row) as (Hid & _ & j & Hj & Hjid & _).
  - by_compute.
  - split; [done|]. by exists j.
Defined.

(** *** Stored dimensions are positive, stored volumes are volumes *)

Lemma refine_Valid {A} (check : A → bool) msg (sch : Zod.Schema A) p v a :
  Zod.refine check msg sch p v = Zod.Valid a → check a = true.
Proof.
  unfold Zod.refine. destruct (sch p v); [|done..].
  destruct (check a0) eqn:E; [|done]. by intros [= <-].
Qed.

Lemma optional_refine_Valid {A} (check : A → bool) msg (sch : Zod.Schema A) p v a :
  Zod.optional (Zod.refine check msg sch) p v = Zod.Valid (Some a) → check a = true.
Proof.
  unfold Zod.optional. destruct v; [|done].
  destruct (Zod.refine check msg sch p (Some j)) eqn:E; simpl; [|done..].
  intros [= <-]. by apply refine_Valid in E.
Qed.

Lemma object_Valid {A} (keys : gmap string json → Zod.ParseResult A) body a :
  Zod.object keys body = Zod.Valid a → ∃ o, body = JObj o.
Proof. destruct body; try done. by eexists. Qed.

Lemma createdEstimate_positive now k j body data :
  Schema.estimateValidationSchema body = Zod.Valid data →
  positiveDimensions (createdEstimate now k j data).
Proof.
  intros Hdata. destruct (object_Valid _ _ _ Hdata) as [o ->].
  destruct (estimateValidationSchema_inv o data Hdata) as (_ & _ & K3 & K4 & K5 & _).
  split_and!; simpl; eapply refine_Valid; eassumption.
Qed.

Lemma updatedEstimate_positive body data jobId cur :
  Schema.estimateValidationSchema_partial body = Zod.Valid data →
  positiveDimensions cur →
  positiveDimensions (updatedEstimate data jobId cur).
Proof.
  intros Hdata (H1 & H2 & H3). destruct (object_Valid _ _ _ Hdata) as [o ->].
  destruct (estimateValidationSchema_partial_inv o data Hdata) as (_ & K2 & K3 & K4 & _).
  unfold positiveDimensions, updatedEstimate. simpl.
  destruct (PartialEstimate.pipeLength data), (PartialEstimate.trenchWidth data),
    (PartialEstimate.trenchDepth data); simpl; split_and!; try done;
    eapply optional_refine_Valid; eassumption.
Qed.

Lemma positiveDimensions_serve reqs :
  map_Forall (λ _ e, positiveDimensions e) (estimates (Routes.serve reqs emptyDb)).
Proof.
  apply (serve_ind (λ db, map_Forall (λ _ e, positiveDimensions e) (estimates db)));
    [|apply map_Forall_empty].
  intros now req db Hdb k e' Hk.
  destruct (estimates_step _ _ _ _ _ Hk)
    as [H|[(body & data & j & _ & Hdata & _ & _ & ->)
          |(body & data & cur & jobId & _ & Hdata & Hcur & ->)]].
  - by apply (Hdb k).
  - by apply (createdEstimate_positive _ _ _ body).
  - apply (updatedEstimate_positive body); [done|]. by apply (Hdb k).
Qed.

(** X2. After any sequence of requests the pipeLength, trenchWidth and
    trenchDepth of every stored estimate are greater than 0 (and so are
    numbers, not NaN): no create and no update stores a dimension that the
    schema refuses. *)
Theorem stored_dimensions_positive reqs id e :
  estimates (Routes.serve reqs emptyDb) !! id = Some e →
  JS.gt0 (Estimate.pipeLength e) = true
  ∧ JS.gt0 (Estimate.trenchWidth e) = true
  ∧ JS.gt0 (Estimate.trenchDepth e) = true
  ∧ Estimate.pipeLength e ≠ JS.NaN
  ∧ Estimate.trenchWidth e ≠ JS.NaN
  ∧ Estimate.trenchDepth e ≠ JS.NaN.
Proof.
  intros He. destruct (positiveDimensions_serve reqs id e He) as (H1 & H2 & H3).
  split_and!; try done; intros E; by rewrite E in *.
Qed.

Lemma stored_dimensions_positive_witness :
  JS.gt0 (Estimate.pipeLength Demo.row) = true.
Proof.
  apply (stored_dimensions_positive Demo.requests 1 Demo.row). by_compute.
Defined.

Lemma gt0_cases x : JS.gt0 x = true → x = JS.Inf false ∨ ∃ q, x = JS.Fin q ∧ (0 < q)%Qc.
Proof.
  destruct x as [|q|[]]; simpl; try done; [|by left].
  intros H. right. exists q. split; [done|]. by apply bool_decide_eq_true in H.
Qed.

Lemma isZero_pos q : (0 < q)%Qc → JS.isZero q = false.
Proof.
  intros H. apply bool_decide_eq_false. intros ->. by apply (Qclt_not_eq 0 0).
Qed.

Lemma isNeg_pos q : (0 ≤ q)%Qc → JS.isNeg q = false.
Proof. intros H. apply bool_decide_eq_false. by apply Qcle_not_lt. Qed.

Lemma mul_gt0 x y : JS.gt0 x = true → JS.gt0 y = true → JS.gt0 (JS.mul x y) = true.
Proof.
  intros [->|(a & -> & Ha)]%gt0_cases [->|(b & -> & Hb)]%gt0_cases; simpl; try done.
  - by rewrite isZero_pos, isNeg_pos by (try done; by apply Qclt_le_weak).
  - by rewrite isZero_pos, isNeg_pos by (try done; by apply Qclt_le_weak).
  - apply bool_decide_eq_true. qc2q. by apply Qmult_lt_0_compat.
Qed.

Lemma calculateCubicYards_isVolume L W D :
  JS.gt0 L = true → JS.gt0 W = true → JS.gt0 D = true →
  isVolume (calculateCubicYards L W D).
Proof.
  intros HL HW HD. unfold calculateCubicYards.
  pose proof (mul_gt0 _ _ (mul_gt0 _ _ HL HW) HD) as Hp.
  destruct (gt0_cases _ Hp) as [->|(q & -> & Hq)].
  - left. by vm_compute.
  - right. unfold JS.div, JS.ofZ.
    replace (JS.isZero (Qc_of_Z 27)) with false by (by vm_compute).
    rewrite Number_toFixed_2.
    assert (H27 : (0 ≤ q / Qc_of_Z 27)%Qc).
    { qc2q. change (/ inject_Z 27)%Q with (1 # 27)%Q. lra. }
    rewrite (isNeg_pos _ H27). eexists. split; [|reflexivity].
    apply nearestScaled_nonneg, Qabs_nonneg.
Qed.

(** X3. After any sequence of requests the cubicYards of every stored
    estimate is a volume: a nonnegative whole number of hundredths (or
    Infinity, for a dimension that is infinite); it is never negative, never
    NaN and never has more than two decimal places. *)
Theorem stored_cubicYards_is_volume reqs id e :
  estimates (Routes.serve reqs emptyDb) !! id = Some e →
  isVolume (Estimate.cubicYards e)
  ∧ Estimate.cubicYards e ≠ JS.NaN
  ∧ JS.ge0 (Estimate.cubicYards e) = true.
Proof.
  intros He.
  assert (Hv : isVolume (Estimate.cubicYards e)).
  { assert (Hc : allComputed (Routes.serve reqs emptyDb))
      by (apply (serve_ind allComputed); [apply allComputed_route|apply map_Forall_empty]).
    rewrite (Hc id e He).
    destruct (positiveDimensions_serve reqs id e He) as (H1 & H2 & H3).
    by apply calculateCubicYards_isVolume. }
  split; [done|]. destruct Hv as [->|(n & Hn & ->)]; [done|].
  split; [done|]. simpl. apply bool_decide_eq_true.
  qc2q. change (/ inject_Z 100)%Q with (1 # 100)%Q.
  assert (0 <= inject_Z n)%Q by (change 0%Q with (inject_Z 0); by rewrite <- Zle_Qle).
  lra.
Qed.

Lemma stored_cubicYards_is_volume_witness : isVolume (Estimate.cubicYards Demo.row).
Proof.
  apply (stored_cubicYards_is_volume Demo.requests 1 Demo.row). by_compute.
Defined.

(** *** A request that is refused changes nothing *)

Lemma withoutJob_absent id db :
  wf db → jobs db !! id = None → withoutJob id db = db.
Proof.
  intros [_ He] Hnone. destruct db as [js es sj se]. unfold withoutJob. simpl in *.
  f_equal.
  - by apply delete_id.
  - apply map_filter_id. intros k e Hk. simpl. intros Heq.
    destruct (He k e Hk) as (_ & _ & [j Hj]). simpl in Hj. congruence.
Qed.

Lemma post_jobs_refused body db :
  Routes.status (Routes.post_jobs body db).1 = 400
  ∨ Routes.status (Routes.post_jobs body db).1 = 404 →
  (Routes.post_jobs body db).2 = db.
Proof.
  unfold Routes.post_jobs, Routes.try, Routes.json_, bind, ret,
    DbStorage.createJob, bind, ret, DbStorage.insertJob.
  destruct (Schema.insertJobSchema body) as [data|i|i]; simpl; [|done..].
  destruct (jobs db !! jobs_id_seq db); simpl; intros [|]; done.
Qed.

Lemma post_estimates_refused now body db :
  Routes.status (Routes.post_estimates now body db).1 = 400
  ∨ Routes.status (Routes.post_estimates now body db).1 = 404 →
  (Routes.post_estimates now body db).2 = db.
Proof.
  unfold Routes.post_estimates, Routes.try, Routes.json_, bind, ret,
    DbStorage.createEstimate, bind, ret, DbStorage.insertEstimate.
  destruct (Schema.estimateValidationSchema body) as [data|i|i]; simpl; [|done..].
  destruct (toInteger _) as [j|]; simpl; [|intros [|]; done].
  destruct (estimates db !! estimates_id_seq db), (jobs db !! j); simpl;
    intros [|]; done.
Qed.

(** X4. A request that is answered 400 (invalid body) or 404 (no such job or
    estimate) leaves the database exactly as it was, sequences included, and
    so does every GET, whatever it answers.  (For DELETE /api/jobs/:id this
    uses that no stored estimate refers to a job that is not stored.) *)
Theorem refused_requests_change_nothing reqs now req :
  let db := Routes.serve reqs emptyDb in
  Routes.status (Routes.registerRoutes now req db).1 = 400
  ∨ Routes.status (Routes.registerRoutes now req db).1 = 404
  ∨ isGet req = true →
  (Routes.registerRoutes now req db).2 = db.
Proof.
  intros db H. pose proof (wf_serve reqs) as Hwf. fold db in Hwf.
  destruct (isGet req) eqn:Hget; [by apply get_unchanged|].
  assert (H' : Routes.status (Routes.registerRoutes now req db).1 = 400
               ∨ Routes.status (Routes.registerRoutes now req db).1 = 404)
    by (destruct H as [|[|]]; auto; done).
  clear H. destruct req; try done; simpl in *.
  - by apply post_jobs_refused.
  - destruct (put_job_cases id body db) as [[-> _]|(data & cur & _ & _ & _ & Hput)];
      [done|].
    rewrite Hput in H'. simpl in H'. by destruct H'.
  - rewrite delete_job_run in *. simpl in *.
    case_bool_decide as Hex; simpl in H'; [by destruct H'|].
    apply withoutJob_absent; [done|]. by apply eq_None_not_Some.
  - by apply post_estimates_refused.
  - destruct (put_estimate_cases id body db) as [->|(e & db' & Hput)]; [done|].
    rewrite Hput in H'. simpl in H'. by destruct H'.
  - rewrite delete_estimate_run in *. destruct (estimates db !! id); [|done].
    simpl in H'. by destruct H'.
Qed.

Lemma refused_requests_change_nothing_witness :
  (Routes.registerRoutes 5 (Routes.DELETE_job 7) Demo.db).2 = Demo.db.
Proof.
  apply (refused_requests_change_nothing Demo.requests 5 (Routes.DELETE_job 7)).
  right. left. by vm_compute.
Defined.

(** *** Deleting *)

(** X5. DELETE /api/estimates/:id answers 204 when the estimate is stored and
    404 when it is not; it removes that estimate and nothing else: the other
    estimates and all jobs stay, a GET of the id then answers 404, and a
    second DELETE answers 404 and changes nothing. *)
Theorem delete_estimate_removes_one db id :
  let r := Routes.delete_estimate id db in
  Routes.status r.1 = (if bool_decide (is_Some (estimates db !! id)) then 204 else 404)
  ∧ estimates r.2 = delete id (estimates db)
  ∧ (∀ k, k ≠ id → estimates r.2 !! k = estimates db !! k)
  ∧ jobs r.2 = jobs db
  ∧ Routes.get_estimate id r.2
    = ({| Routes.status := 404; Routes.payload := Routes.Message "Estimate not found" |},
       r.2)
  ∧ Routes.delete_estimate id r.2
    = ({| Routes.status := 404; Routes.payload := Routes.Message "Estimate not found" |},
       r.2).
Proof.
  intros r. subst r. rewrite delete_estimate_run.
  destruct (estimates db !! id) as [e|] eqn:E; simpl.
  - split_and!; try done.
    + intros k Hk. by rewrite lookup_delete_ne.
    + unfold Routes.get_estimate, Routes.try, bind, DbStorage.getEstimate. simpl.
      by rewrite lookup_delete_eq.
    + rewrite delete_estimate_run. simpl. by rewrite lookup_delete_eq.
  - split_and!; try done.
    + by rewrite delete_id.
    + unfold Routes.get_estimate, Routes.try, bind, DbStorage.getEstimate. by rewrite E.
    + rewrite delete_estimate_run. by rewrite E.
Qed.

Lemma delete_estimate_removes_one_witness :
  estimates (Routes.delete_estimate 1 Demo.db).2 !! 2 = estimates Demo.db !! 2.
Proof.
  by apply (delete_estimate_removes_one Demo.db 1).
Defined.

(** X6. DELETE /api/jobs/:id answers 204 when the job is stored and 404 when
    it is not, never 500; the other jobs stay as they are, and the estimates
    that stay are exactly those of the other jobs, unchanged. *)
Theorem delete_job_leaves_others db id :
  let r := Routes.delete_job id db in
  Routes.status r.1 = (if bool_decide (is_Some (jobs db !! id)) then 204 else 404)
  ∧ jobs r.2 !! id = None
  ∧ (∀ k, k ≠ id → jobs r.2 !! k = jobs db !! k)
  ∧ (∀ k e, estimates r.2 !! k = Some e
            ↔ estimates db !! k = Some e ∧ Estimate.jobId e ≠ id).
Proof.
  intros r. subst r. rewrite delete_job_run. simpl. split_and!.
  - by destruct (bool_decide _).
  - by rewrite lookup_delete_eq.
  - intros k Hk. by rewrite lookup_delete_ne.
  - intros k e. by rewrite map_lookup_filter_Some.
Qed.

Lemma delete_job_leaves_others_witness :
  jobs (Routes.delete_job 2 Demo.db).2 !! 1 = jobs Demo.db !! 1.
Proof.
  by apply (delete_job_leaves_others Demo.db 2).
Defined.

(** *** Updating *)

Lemma put_job_ok id body data cur db :
  Schema.insertJobSchema_partial body = Zod.Valid data →
  DbStorage.noJobColumns data = false →
  jobs db !! id = Some cur →
  Routes.put_job id body db
  = ({| Routes.status := 200; Routes.payload := Routes.AJob (DbStorage.setJob data cur) |},
     withJob id (DbStorage.setJob data cur) (jobs_id_seq db) db).
Proof.
  intros Hdata Hno Hcur.
  unfold Routes.put_job, Routes.try, Routes.json_, bind, ret, DbStorage.updateJob.
  rewrite Hdata. destruct data as [n l c sd st nt]. cbv beta iota zeta.
  cbn [PartialJob.name PartialJob.location PartialJob.client PartialJob.startDate
       PartialJob.status PartialJob.notes].
  by rewrite Hno, Hcur.
Qed.

(** X7. A valid PUT /api/jobs/:id with at least one field, for a stored job,
    answers 200 with the job in which each field of the body replaces the
    stored one and the other fields and the id are kept; a GET of the id then
    answers that job; the other jobs and all estimates stay as they are. *)
Theorem put_job_merges db id body data cur :
  Schema.insertJobSchema_partial body = Zod.Valid data →
  DbStorage.noJobColumns data = false →
  jobs db !! id = Some cur →
  ∃ j db',
    Routes.put_job id body db
    = ({| Routes.status := 200; Routes.payload := Routes.AJob j |}, db')
    ∧ Routes.get_job id db'
      = ({| Routes.status := 200; Routes.payload := Routes.AJob j |}, db')
    ∧ Job.id j = Job.id cur
    ∧ Job.name j = default (Job.name cur) (PartialJob.name data)
    ∧ Job.location j = default (Job.location cur) (PartialJob.location data)
    ∧ Job.client j = default (Job.client cur) (PartialJob.client data)
    ∧ Job.startDate j = default (Job.startDate cur) (PartialJob.startDate data)
    ∧ Job.status j = default (Job.status cur) (PartialJob.status data)
    ∧ Job.notes j = default (Job.notes cur) (PartialJob.notes data)
    ∧ (∀ k, k ≠ id → jobs db' !! k = jobs db !! k)
    ∧ estimates db' = estimates db.
Proof.
  intros Hdata Hno Hcur. eexists _, _.
  split; [by apply put_job_ok|]. split_and!; try done.
  - unfold Routes.get_job, Routes.try, bind, DbStorage.getJob. simpl.
    by rewrite lookup_insert_eq.
  - intros k Hk. simpl. by rewrite lookup_insert_ne.
Qed.

Lemma put_job_merges_witness :
  ∃ j db',
    Routes.put_job 1 (JObj {["status"%string := JStr "completed"]}) Demo.db
    = ({| Routes.status := 200; Routes.payload := Routes.AJob j |}, db')
    ∧ Job.status j = "completed"%string
    ∧ Job.name j = "Sewer main"%string.
Proof.
  destruct (put_job_merges Demo.db 1 (JObj {["status"%string := JStr "completed"]})
              {| PartialJob.name := None; PartialJob.location := None;
                 PartialJob.client := None; PartialJob.startDate := None;
                 PartialJob.status := Some "completed"%string;
                 PartialJob.notes := None |}
              (createdJob 1 Demo.jobData))
    as (j & db' & Hput & _ & _ & Hname & _ & _ & _ & Hstatus & _).
  - by_compute.
  - reflexivity.
  - by_compute.
  - by exists j, db'.
Defined.

Lemma default_default {A} (a : A) (o : option A) : default (default a o) o = default a o.
Proof. by destruct o. Qed.

Lemma updatedEstimate_idempotent data jobId cur :
  updatedEstimate data jobId (updatedEstimate data jobId cur) = updatedEstimate data jobId cur.
Proof.
  unfold updatedEstimate. cbn [Estimate.id Estimate.jobId Estimate.description
    Estimate.pipeLength Estimate.trenchWidth Estimate.trenchDepth Estimate.cubicYards
    Estimate.materialWeight Estimate.importUnitCost Estimate.estimatedHours
    Estimate.createdAt Estimate.notes].
  rewrite !default_default. by destruct (dimensionsIn data).
Qed.

(** X8. PUT /api/estimates/:id is idempotent: sending the same request a
    second time gives the same answer and leaves the database as the first
    one left it, whether the request succeeds or is refused. *)
Theorem put_estimate_idempotent db id body :
  let r := Routes.put_estimate id body db in
  Routes.put_estimate id body r.2 = r.
Proof.
  intros r. subst r.
  destruct (put_estimate_cases id body db) as [H|(e & db' & Hput)]; [by rewrite H|].
  rewrite Hput. simpl.
  destruct (put_estimate_inv _ _ _ _ _ Hput)
    as (data & cur & jobId & Hdata & Hcur & Hj & -> & ->).
  rewrite (put_estimate_ok id body data (updatedEstimate data jobId cur) jobId).
  - rewrite updatedEstimate_idempotent. unfold withEstimate. simpl.
    by rewrite insert_insert_eq.
  - done.
  - simpl. by rewrite lookup_insert_eq.
  - unfold jobIdAccepted in *. destruct (PartialEstimate.jobId data) as [x|]; [|done].
    destruct Hj as (j & Hx & -> & _). exists j. split_and!; try done. by left.
Qed.

(** *** Listing *)

(** X9. GET /api/estimates answers 200 with exactly the stored estimates
    whose jobId is the one of the query; without a jobId in the query, and
    also for the jobId 0, it answers all stored estimates.  The database is
    not changed. *)
Theorem get_estimates_filters db jobId :
  ∃ l,
    Routes.get_estimates jobId db
    = ({| Routes.status := 200; Routes.payload := Routes.Estimates l |}, db)
    ∧ ∀ e, e ∈ l
           ↔ (∃ k, estimates db !! k = Some e)
             ∧ match jobId with
               | Some j => j = 0 ∨ Estimate.jobId e = j
               | None => True
               end.
Proof.
  unfold Routes.get_estimates, Routes.try, Routes.json_, bind, ret.
  destruct jobId as [j|]; [case_bool_decide as Hj|].
  - eexists. split; [done|]. intros e. rewrite elem_of_rows.
    split; [intros H; split; [done|by left]|by intros [H _]].
  - eexists. split; [done|]. intros e. rewrite elem_of_rows. unfold estimatesOf.
    split.
    + intros [k [Hk Hjob]%map_lookup_filter_Some]. split; [by exists k|by right].
    + intros [[k Hk] [?|Hjob]]; [done|]. exists k. by apply map_lookup_filter_Some.
  - eexists. split; [done|]. intros e. rewrite elem_of_rows.
    split; [by intros H|by intros [H _]].
Qed.

(** *** Ids *)

(** X10. Ids are never given twice: a job created after another one, with
    any requests in between (deletions too), has a greater id, and so has an
    estimate created after another one. *)
Theorem created_ids_increase db reqs now1 now2 body1 body2 :
  (∀ j1 j2 db1 db2,
     Routes.post_jobs body1 db
     = ({| Routes.status := 201; Routes.payload := Routes.AJob j1 |}, db1) →
     Routes.post_jobs body2 (Routes.serve reqs db1)
     = ({| Routes.status := 201; Routes.payload := Routes.AJob j2 |}, db2) →
     Job.id j1 < Job.id j2)
  ∧ (∀ e1 e2 db1 db2,
       Routes.post_estimates now1 body1 db
       = ({| Routes.status := 201; Routes.payload := Routes.AnEstimate e1 |}, db1) →
       Routes.post_estimates now2 body2 (Routes.serve reqs db1)
       = ({| Routes.status := 201; Routes.payload := Routes.AnEstimate e2 |}, db2) →
       Estimate.id e1 < Estimate.id e2).
Proof.
  split.
  - intros j1 j2 db1 db2 H1 H2.
    destruct (post_jobs_cases body1 db) as [(_ & _ & Hne)|(d1 & _ & _ & E1)];
      [by rewrite H1 in Hne|].
    destruct (post_jobs_cases body2 (Routes.serve reqs db1))
      as [(_ & _ & Hne)|(d2 & _ & _ & E2)]; [by rewrite H2 in Hne|].
    rewrite H1 in E1. rewrite H2 in E2. injection E1 as -> ->. injection E2 as -> ->.
    pose proof (seq_serve reqs
      (withJob (jobs_id_seq db) (createdJob (jobs_id_seq db) d1) (jobs_id_seq db + 1) db))
      as [Hseq _].
    simpl in *. lia.
  - intros e1 e2 db1 db2 H1 H2.
    destruct (post_estimates_cases now1 body1 db)
      as [(_ & _ & Hne)|(d1 & k1 & _ & _ & _ & _ & E1)]; [by rewrite H1 in Hne|].
    destruct (post_estimates_cases now2 body2 (Routes.serve reqs db1))
      as [(_ & _ & Hne)|(d2 & k2 & _ & _ & _ & _ & E2)]; [by rewrite H2 in Hne|].
    rewrite H1 in E1. rewrite H2 in E2. injection E1 as -> ->. injection E2 as -> ->.
    pose proof (seq_serve reqs
      (withEstimate (estimates_id_seq db)
         (createdEstimate now1 (estimates_id_seq db) k1 d1) (estimates_id_seq db + 1) db))
      as [_ Hseq].
    simpl in *. lia.
Qed.

Lemma created_ids_increase_witness :
  Job.id (createdJob 1 Demo.jobData) < Job.id (createdJob 2 Demo.jobData).
Proof.
  apply (proj1 (created_ids_increase emptyDb [(1, Routes.DELETE_job 1)] 0 0
                  Demo.job Demo.job)
           (createdJob 1 Demo.jobData) (createdJob 2 Demo.jobData)
           (withJob 1 (createdJob 1 Demo.jobData) 2 emptyDb)
           (withJob 2 (createdJob 2 Demo.jobData) 3
              (Routes.serve [(1, Routes.DELETE_job 1)]
                 (withJob 1 (createdJob 1 Demo.jobData) 2 emptyDb)))).
  - by_compute.
  - by_compute.
Defined.



(** X12. The id and the createdAt of an estimate never change: whatever
    requests are served after it is stored (updates that send createdAt
    among them), the estimate found under its id has the id and the
    createdAt it had. *)
Theorem estimate_id_createdAt_immutable reqs reqs' k e e' :
  let db := Routes.serve reqs emptyDb in
  estimates db !! k = Some e →
  estimates (Routes.serve reqs' db) !! k = Some e' →
  Estimate.id e' = Estimate.id e ∧ Estimate.createdAt e' = Estimate.createdAt e.
Proof.
  intros db He. revert e'.
  assert (Hk : k < estimates_id_seq db).
  { destruct (wf_serve reqs) as [_ H]. by destruct (H k e He) as (_ & ? & _). }
  induction reqs' as [|[now req] reqs' IH] using rev_ind; intros e' He'.
  - simpl in He'. by assert (e' = e) as -> by congruence.
  - rewrite serve_snoc in He'.
    destruct (estimates_step _ _ _ _ _ He')
      as [H|[(body & data & j & _ & _ & _ & Hseq & _)
            |(body & data & cur & jobId & _ & _ & Hcur & ->)]].
    + by apply IH.
    + pose proof (seq_serve reqs' db) as [_ ?]. lia.
    + by destruct (IH cur Hcur).
Qed.

Lemma estimate_id_createdAt_immutable_witness :
  Estimate.createdAt (updatedEstimate Demo.longerData None Demo.row) = Some 1.
Proof.
  apply (estimate_id_createdAt_immutable Demo.requests
           [(9, Routes.PUT_estimate 1 Demo.longer)] 1 Demo.row
           (updatedEstimate Demo.longerData None Demo.row)); by_compute.
Defined.

(** X13. Creating an estimate and then deleting it by the id that was
    returned leaves both tables as they were before the creation: the
    deletion is answered 204 and undoes the creation (only the sequence has
    moved on). *)
Theorem create_then_delete_estimate reqs now body e db1 :
  let db := Routes.serve reqs emptyDb in
  Routes.post_estimates now body db
  = ({| Routes.status := 201; Routes.payload := Routes.AnEstimate e |}, db1) →
  ∃ db2,
    Routes.delete_estimate (Estimate.id e) db1
    = ({| Routes.status := 204; Routes.payload := Routes.End |}, db2)
    ∧ estimates db2 = estimates db
    ∧ jobs db2 = jobs db
    ∧ estimates_id_seq db2 = estimates_id_seq db + 1.
Proof.
  intros db Hpost.
  destruct (post_estimates_cases now body db)
    as [(_ & _ & Hne)|(data & j & _ & _ & _ & Hnone & E)]; [by rewrite Hpost in Hne|].
  rewrite Hpost in E. injection E as -> ->.
  rewrite delete_estimate_run. simpl. rewrite lookup_insert_eq.
  eexists. split; [done|]. simpl. split_and!; try done.
  by apply delete_insert_id.
Qed.

Lemma create_then_delete_estimate_witness :
  ∃ db2,
    Routes.delete_estimate 1 Demo.db
    = ({| Routes.status := 204; Routes.payload := Routes.End |}, db2)
    ∧ estimates db2 = ∅.
Proof.
  destruct (create_then_delete_estimate [(0, Routes.POST_jobs Demo.job)] 1
              Demo.estimate Demo.row Demo.db) as (db2 & Hdel & Hest & _).
  - by_compute.
  - exists db2. split; [done|]. by rewrite Hest.
Defined.

(** *** Keys that a body has to have *)

Lemma post_jobs_invalid body db :
  Routes.errorOf (Schema.insertJobSchema body) ≠ [] →
  Routes.post_jobs body db
  = ({| Routes.status := 400;
        Routes.payload := Routes.Invalid "Invalid job data"
                            (Routes.errorOf (Schema.insertJobSchema body)) |},
     db).
Proof.
  unfold Routes.post_jobs, Routes.try.
  by destruct (Schema.insertJobSchema body).
Qed.

(** The issue of a key that is missing is among the issues of the object. *)
Ltac missing_key Ho :=
  unfold Schema.estimateValidationSchema, Schema.insertJobSchema, Zod.object;
  repeat first
    [ apply errorOf_ap_r; unfold Zod.key; rewrite Ho; apply list_elem_of_singleton;
      reflexivity
    | apply errorOf_ap_l ];
  try (rewrite errorOf_map; unfold Zod.key; rewrite Ho; apply list_elem_of_singleton;
       reflexivity).

(** X14. A body of POST /api/estimates has to have jobId, pipeLength,
    trenchWidth, trenchDepth, cubicYards, materialWeight, importUnitCost and
    estimatedHours (cubicYards too, although its value is not used, and the
    three keys that have a default in the table), and a body of POST
    /api/jobs has to have name, location and client: without one of them the
    request is answered 400 with an issue at that key, and nothing is
    stored. *)
Theorem required_keys now o db k :
  o !! k = None →
  (k ∈ requiredEstimateKeys →
   ∃ errors i,
     Routes.post_estimates now (JObj o) db
     = ({| Routes.status := 400;
           Routes.payload := Routes.Invalid "Invalid estimate data" errors |}, db)
     ∧ i ∈ errors ∧ Zod.path i = [k])
  ∧ (k ∈ requiredJobKeys →
     ∃ errors i,
       Routes.post_jobs (JObj o) db
       = ({| Routes.status := 400;
             Routes.payload := Routes.Invalid "Invalid job data" errors |}, db)
       ∧ i ∈ errors ∧ Zod.path i = [k]).
Proof.
  intros Ho. split; intros Hk.
  - assert (Hin : ∃ i, i ∈ Routes.errorOf (Schema.estimateValidationSchema (JObj o))
                       ∧ Zod.path i = [k]).
    { unfold requiredEstimateKeys in Hk. rewrite !elem_of_cons, elem_of_nil in Hk.
      destruct Hk as [->|[->|[->|[->|[->|[->|[->|[->|[]]]]]]]]].
      - exists {| Zod.path := ["jobId"%string]; Zod.message := "Required" |}.
        split; [|done]. missing_key Ho.
      - exists {| Zod.path := ["pipeLength"%string]; Zod.message := "Required" |}.
        split; [|done]. missing_key Ho.
      - exists {| Zod.path := ["trenchWidth"%string]; Zod.message := "Required" |}.
        split; [|done]. missing_key Ho.
      - exists {| Zod.path := ["trenchDepth"%string]; Zod.message := "Required" |}.
        split; [|done]. missing_key Ho.
      - exists {| Zod.path := ["cubicYards"%string]; Zod.message := "Required" |}.
        split; [|done]. missing_key Ho.
      - exists {| Zod.path := ["materialWeight"%string]; Zod.message := "Invalid input" |}.
        split; [|done]. missing_key Ho.
      - exists {| Zod.path := ["importUnitCost"%string]; Zod.message := "Invalid input" |}.
        split; [|done]. missing_key Ho.
      - exists {| Zod.path := ["estimatedHours"%string]; Zod.message := "Invalid input" |}.
        split; [|done]. missing_key Ho. }
    destruct Hin as (i & Hi & Hp). eexists _, i. split_and!; [|exact Hi|done].
    apply post_estimates_invalid. intros E. rewrite E in Hi. by apply elem_of_nil in Hi.
  - assert (Hin : ∃ i, i ∈ Routes.errorOf (Schema.insertJobSchema (JObj o))
                       ∧ Zod.path i = [k]).
    { unfold requiredJobKeys in Hk. rewrite !elem_of_cons, elem_of_nil in Hk.
      destruct Hk as [->|[->|[->|[]]]].
      - exists {| Zod.path := ["name"%string]; Zod.message := "Required" |}.
        split; [|done]. missing_key Ho.
      - exists {| Zod.path := ["location"%string]; Zod.message := "Required" |}.
        split; [|done]. missing_key Ho.
      - exists {| Zod.path := ["client"%string]; Zod.message := "Required" |}.
        split; [|done]. missing_key Ho. }
    destruct Hin as (i & Hi & Hp). eexists _, i. split_and!; [|exact Hi|done].
    apply post_jobs_invalid. intros E. rewrite E in Hi. by apply elem_of_nil in Hi.
Qed.

Lemma required_keys_witness :
  ∃ errors i,
    Routes.post_estimates 2 (JObj (delete "cubicYards"%string Demo.estimateFields)) Demo.db
    = ({| Routes.status := 400;
          Routes.payload := Routes.Invalid "Invalid estimate data" errors |}, Demo.db)
    ∧ i ∈ errors ∧ Zod.path i = ["cubicYards"%string].
Proof.
  apply (required_keys 2 (delete "cubicYards"%string Demo.estimateFields) Demo.db
           "cubicYards"%string).
  - by vm_compute.
  - unfold requiredEstimateKeys. rewrite !elem_of_cons. tauto.
Defined.

(** *** Numbers sent as strings are not checked for their sign *)



(** *** The calculation engine *)

Lemma calculateCubicYards_nonneg (q : Qc) :
  (0 ≤ q)%Qc →
  JS.Number (JS.toFixed 2 (JS.Fin q))
  = JS.Fin (Qc_of_Z (JS.nearestScaled 2 q) / Qc_of_Z 100)%Qc.
Proof.
  intros Hq. rewrite Number_toFixed_2. cbv zeta. rewrite (isNeg_pos _ Hq).
  assert (Habs : Qabs q = q :> Q).
  { destruct q as [[n d] Hc]. unfold Qcle, Qle in Hq. simpl in *.
    unfold Qabs. f_equal. lia. }
  by rewrite Habs.
Qed.

(** X16. calculateCubicYards is monotone: a trench that is at least as long,
    as wide and as deep never has a smaller volume, rounding included. *)
Theorem calculateCubicYards_monotone (L L' W W' D D' : Qc) :
  (0 ≤ L ≤ L')%Qc → (0 ≤ W ≤ W')%Qc → (0 ≤ D ≤ D')%Qc →
  numLe (calculateCubicYards (JS.Fin L) (JS.Fin W) (JS.Fin D))
        (calculateCubicYards (JS.Fin L') (JS.Fin W') (JS.Fin D')).
Proof.
  intros [HL HL'] [HW HW'] [HD HD'].
  assert (Hle : (L * W * D <= L' * W' * D')%Q).
  { apply Qmult_le_compat_nonneg; [split|by split].
    - by apply Qmult_le_0_compat.
    - by apply Qmult_le_compat_nonneg. }
  assert (H0 : (0 <= L * W * D)%Q) by (by repeat apply Qmult_le_0_compat).
  assert (Hq : (0 ≤ L * W * D / Qc_of_Z 27)%Qc).
  { qc2q. change (/ inject_Z 27)%Q with (1 # 27)%Q. lra. }
  assert (Hq' : (0 ≤ L' * W' * D' / Qc_of_Z 27)%Qc).
  { qc2q. change (/ inject_Z 27)%Q with (1 # 27)%Q. lra. }
  unfold calculateCubicYards. simpl JS.mul. unfold JS.div, JS.ofZ.
  replace (JS.isZero (Qc_of_Z 27)) with false by (by vm_compute).
  rewrite !calculateCubicYards_nonneg by done. simpl.
  assert (Hmono : ∀ a b : Z,
            a ≤ b → (Qc_of_Z a / Qc_of_Z 100 ≤ Qc_of_Z b / Qc_of_Z 100)%Qc).
  { intros a b Hab. rewrite Zle_Qle in Hab.
    qc2q. change (/ inject_Z 100)%Q with (1 # 100)%Q. lra. }
  apply Hmono. unfold JS.nearestScaled. apply Qfloor_resp_le.
  change (inject_Z (JS.pow10 2)) with (100 # 1)%Q.
  qc2q. change (/ inject_Z 27)%Q with (1 # 27)%Q. lra.
Qed.

Lemma calculateCubicYards_monotone_witness :
  numLe (calculateCubicYards (JS.ofZ 10) (JS.ofZ 2) (JS.ofZ 3))
        (calculateCubicYards (JS.ofZ 100) (JS.ofZ 2) (JS.ofZ 3)).
Proof.
  apply (calculateCubicYards_monotone (Qc_of_Z 10) (Qc_of_Z 100) (Qc_of_Z 2) (Qc_of_Z 2)
           (Qc_of_Z 3) (Qc_of_Z 3)); split; by vm_compute.
Defined.

(** *** What the calculators show *)

Lemma nearestScaled_hundredths (n : Z) (x : Q) :
  (x == inject_Z n * (1 # 100))%Q → JS.nearestScaled 2 x = n.
Proof.
  intros Hx. unfold JS.nearestScaled. change (inject_Z (JS.pow10 2)) with (100 # 1)%Q.
  pose proof (Qfloor_le (x * (100 # 1) + (1 # 2))) as Hlo.
  pose proof (Qlt_floor (x * (100 # 1) + (1 # 2))) as Hhi.
  set (m := Qfloor (x * (100 # 1) + (1 # 2))) in *.
  assert (inject_Z m < inject_Z n + 1)%Q as H1 by lra.
  assert (inject_Z n < inject_Z (m + 1))%Q as H2 by lra.
  change 1%Q with (inject_Z 1) in H1.
  rewrite <- inject_Z_plus, <- Zlt_Qlt in H1. rewrite <- Zlt_Qlt in H2. lia.
Qed.

Lemma hundredths_fixed (n : Z) :
  JS.Number (JS.toFixed 2 (JS.Fin (Qc_of_Z n / Qc_of_Z 100)%Qc))
  = JS.Fin (Qc_of_Z n / Qc_of_Z 100)%Qc.
Proof.
  rewrite Number_toFixed_2. cbv zeta.
  assert (Hq : (this (Qc_of_Z n / Qc_of_Z 100)%Qc == inject_Z n * (1 # 100))%Q).
  { qc2q. by change (/ inject_Z 100)%Q with (1 # 100)%Q. }
  assert (Habs : JS.nearestScaled 2 (Qabs (Qc_of_Z n / Qc_of_Z 100)%Qc) = Z.abs n).
  { apply nearestScaled_hundredths. rewrite Hq, Qabs_Qmult. reflexivity. }
  rewrite Habs. f_equal. unfold JS.isNeg.
  destruct (decide (n < 0)) as [Hn|Hn].
  - rewrite bool_decide_eq_true_2.
    + apply Qc_is_canon. rewrite Z.abs_neq by lia.
      qc2q. change (/ inject_Z 100)%Q with (1 # 100)%Q.
      rewrite inject_Z_opp. ring.
    + rewrite Zlt_Qlt in Hn. qc2q. change (/ inject_Z 100)%Q with (1 # 100)%Q.
      change (inject_Z 0) with 0%Q in Hn. lra.
  - rewrite bool_decide_eq_false_2.
    + by rewrite Z.abs_eq by lia.
    + apply Qcle_not_lt. apply Z.nlt_ge in Hn. rewrite Zle_Qle in Hn.
      qc2q. change (/ inject_Z 100)%Q with (1 # 100)%Q.
      change (inject_Z 0) with 0%Q in Hn. lra.
Qed.

(** X17. The result of calculateCubicYards is a fixed point of the rounding:
    written with toFixed(2), as the volume calculator shows it, and read
    back, it is the same number, whatever the three dimensions are. *)
Theorem calculateCubicYards_shown_exactly (L W D : JS.number) :
  JS.Number (JS.toFixed 2 (calculateCubicYards L W D)) = calculateCubicYards L W D.
Proof.
  unfold calculateCubicYards.
  generalize (JS.div (JS.mul (JS.mul L W) D) (JS.ofZ 27)). intros x.
  destruct x as [|q|[]]; [by vm_compute| |by vm_compute|by vm_compute].
  rewrite Number_toFixed_2. cbv zeta.
  set (N := JS.nearestScaled 2 (Qabs q)).
  destruct (JS.isNeg q); [|apply hundredths_fixed].
  replace (- (Qc_of_Z N / Qc_of_Z 100))%Qc with (Qc_of_Z (- N) / Qc_of_Z 100)%Qc;
    [apply hundredths_fixed|].
  apply Qc_is_canon. qc2q. change (/ inject_Z 100)%Q with (1 # 100)%Q.
  rewrite inject_Z_opp. ring.
Qed.


End Coverage.
